(** * claude-profiles: the profile synchronisation engine

    A shallow embedding of [claude-profiles.mjs]: the watch-mode
    debounce/throttle scheduler ([watchProfile], [handleFileChange]), the
    download path of [restoreProfile] and [verifyProfile], the archive
    build of [saveProfile] and [saveProfileSilent], the verification gates
    ([verifyLocalFiles], [verifyDownloadedProfile], the checks of
    [verifyProfile]), the copy-over loop of [restoreProfile] and the
    fingerprint [calculateFilesHash].

    Conventions.  JavaScript strings and buffers are [string]s (sequences of
    bytes); times are milliseconds in [Z]; a JS object used as a map is a
    [gmap]; the tools the script shells out to or loads (archiver, unzip,
    Buffer's base64, curl, node's crypto and JSON) are the members of small
    interfaces, and [cp -r] and [fs.copyFile] are given their POSIX and
    node semantics on a tree model of the file system. *)

From Stdlib Require Import ZArith List String Ascii Bool Lia Permutation Sorted.
From Stdlib Require OrderedTypeEx.
From stdpp Require Import base option list strings gmap sorting.
Import ListNotations.

Local Open Scope string_scope.
Local Open Scope list_scope.

(* ===================================================================== *)
(** * Part I: the model *)
(* ===================================================================== *)

(** ** 1. Watch mode: the closure state of [watchProfile] and node's event loop *)

(** [const minSaveInterval = 30000], [const debounceDelay = 2000]. *)
Definition minSaveInterval : Z := 30000.
Definition debounceDelay : Z := 2000.

(** The two functions handed to [setTimeout] inside [handleFileChange]: the
    outer debounce callback and the inner deferred-save callback. *)
Inductive callback := DebounceCb | DeferredCb.

Record timer := Timer { due : Z; cb : callback }.

(** An async callback suspended at an [await].  [Immediate now] is the
    immediate-save branch, which captured [const now = Date.now()] before
    it started the save; [Deferred] is the deferred-save branch.  Each
    awaits [saveProfileSilent] first and [calculateFilesHash] second. *)
Inductive branch := Immediate (now : Z) | Deferred.
Inductive phase := AwaitSave | AwaitHash.
Record task := Task { t_branch : branch; t_phase : phase }.

(** Ghost journal of the [Saving] action, for stating properties only. *)
Inductive mark := SaveStarted (t : Z) | SaveEnded (t : Z) (ok : bool).

(** The [let] variables of [watchProfile] that [handleFileChange] closes
    over, followed by the event loop: armed timers, suspended callbacks,
    the clock read by [Date.now()].  [lastHash] is only compared by the
    macOS keychain poll, whose effect is a call of [handleFileChange]. *)
Record watch := Watch {
  lastSaveTime : Z;
  pendingSave : bool;
  changeDetected : bool;
  saveCount : nat;
  pendingSaveTimeout : option nat;
  timers : gmap nat timer;
  tasks : gmap nat task;
  fresh : nat;
  clock : Z;
  journal : list mark
}.

(** State at the moment the watchers are installed, at wall-clock [t0]. *)
Definition boot (t0 : Z) : watch :=
  {| lastSaveTime := 0; pendingSave := false; changeDetected := false;
     saveCount := 0; pendingSaveTimeout := None;
     timers := ∅; tasks := ∅; fresh := 0; clock := t0; journal := [] |}.

Definition set_lastSaveTime (v : Z) (s : watch) : watch :=
  {| lastSaveTime := v; pendingSave := pendingSave s;
     changeDetected := changeDetected s; saveCount := saveCount s;
     pendingSaveTimeout := pendingSaveTimeout s; timers := timers s;
     tasks := tasks s; fresh := fresh s; clock := clock s;
     journal := journal s |}.

Definition set_pendingSave (v : bool) (s : watch) : watch :=
  {| lastSaveTime := lastSaveTime s; pendingSave := v;
     changeDetected := changeDetected s; saveCount := saveCount s;
     pendingSaveTimeout := pendingSaveTimeout s; timers := timers s;
     tasks := tasks s; fresh := fresh s; clock := clock s;
     journal := journal s |}.

Definition set_changeDetected (v : bool) (s : watch) : watch :=
  {| lastSaveTime := lastSaveTime s; pendingSave := pendingSave s;
     changeDetected := v; saveCount := saveCount s;
     pendingSaveTimeout := pendingSaveTimeout s; timers := timers s;
     tasks := tasks s; fresh := fresh s; clock := clock s;
     journal := journal s |}.

Definition set_saveCount (v : nat) (s : watch) : watch :=
  {| lastSaveTime := lastSaveTime s; pendingSave := pendingSave s;
     changeDetected := changeDetected s; saveCount := v;
     pendingSaveTimeout := pendingSaveTimeout s; timers := timers s;
     tasks := tasks s; fresh := fresh s; clock := clock s;
     journal := journal s |}.

Definition set_pendingSaveTimeout (v : option nat) (s : watch) : watch :=
  {| lastSaveTime := lastSaveTime s; pendingSave := pendingSave s;
     changeDetected := changeDetected s; saveCount := saveCount s;
     pendingSaveTimeout := v; timers := timers s;
     tasks := tasks s; fresh := fresh s; clock := clock s;
     journal := journal s |}.

Definition set_timers (v : gmap nat timer) (s : watch) : watch :=
  {| lastSaveTime := lastSaveTime s; pendingSave := pendingSave s;
     changeDetected := changeDetected s; saveCount := saveCount s;
     pendingSaveTimeout := pendingSaveTimeout s; timers := v;
     tasks := tasks s; fresh := fresh s; clock := clock s;
     journal := journal s |}.

Definition set_tasks (v : gmap nat task) (s : watch) : watch :=
  {| lastSaveTime := lastSaveTime s; pendingSave := pendingSave s;
     changeDetected := changeDetected s; saveCount := saveCount s;
     pendingSaveTimeout := pendingSaveTimeout s; timers := timers s;
     tasks := v; fresh := fresh s; clock := clock s;
     journal := journal s |}.

Definition set_fresh (v : nat) (s : watch) : watch :=
  {| lastSaveTime := lastSaveTime s; pendingSave := pendingSave s;
     changeDetected := changeDetected s; saveCount := saveCount s;
     pendingSaveTimeout := pendingSaveTimeout s; timers := timers s;
     tasks := tasks s; fresh := v; clock := clock s;
     journal := journal s |}.

Definition set_clock (v : Z) (s : watch) : watch :=
  {| lastSaveTime := lastSaveTime s; pendingSave := pendingSave s;
     changeDetected := changeDetected s; saveCount := saveCount s;
     pendingSaveTimeout := pendingSaveTimeout s; timers := timers s;
     tasks := tasks s; fresh := fresh s; clock := v;
     journal := journal s |}.

Definition log_mark (m : mark) (s : watch) : watch :=
  {| lastSaveTime := lastSaveTime s; pendingSave := pendingSave s;
     changeDetected := changeDetected s; saveCount := saveCount s;
     pendingSaveTimeout := pendingSaveTimeout s; timers := timers s;
     tasks := tasks s; fresh := fresh s; clock := clock s;
     journal := journal s ++ [m] |}.

(** [setTimeout(f, delay)]: arms a timer and returns its handle. *)
Definition setTimeout (c : callback) (delay : Z) (s : watch) : nat * watch :=
  (fresh s,
   set_fresh (S (fresh s))
     (set_timers (<[fresh s := Timer (clock s + delay) c]> (timers s)) s)).

(** [clearTimeout(h)]: disarms [h]; a handle that already fired is ignored. *)
Definition clearTimeout (h : nat) (s : watch) : watch :=
  set_timers (delete h (timers s)) s.

(** [await saveProfileSilent(profileName)]: the callback is suspended with
    the save in flight. *)
Definition start_save (b : branch) (s : watch) : watch :=
  log_mark (SaveStarted (clock s))
    (set_fresh (S (fresh s))
       (set_tasks (<[fresh s := Task b AwaitSave]> (tasks s)) s)).

(** [handleFileChange(eventType, filename)], up to arming the debounce timer. *)
Definition handleFileChange (s : watch) : watch :=
  let s := set_changeDetected true s in
  let s := match pendingSaveTimeout s with
           | Some h => clearTimeout h s
           | None => s
           end in
  let '(h, s) := setTimeout DebounceCb debounceDelay s in
  set_pendingSaveTimeout (Some h) s.

(** The inner callback, armed for [timeToWait], up to its [await]. *)
Definition deferred_callback (s : watch) : watch :=
  if pendingSave s then start_save Deferred s else s.

(** The outer callback, armed for [debounceDelay], up to its [await]. *)
Definition debounce_callback (s : watch) : watch :=
  if negb (changeDetected s) then s
  else
    let s := set_changeDetected false s in
    let now := clock s in
    let timeSinceLastSave := (now - lastSaveTime s)%Z in
    if (minSaveInterval <=? timeSinceLastSave)%Z then
      start_save (Immediate now) s
    else if negb (pendingSave s) then
      let s := set_pendingSave true s in
      let timeToWait := (minSaveInterval - timeSinceLastSave)%Z in
      let '(h, s) := setTimeout DeferredCb timeToWait s in
      set_pendingSaveTimeout (Some h) s
    else s.

(** What the suspended callback does when [saveProfileSilent] settles:
    on success the statement after the [await] up to the next [await]
    ([lastSaveTime = now] or [lastSaveTime = Date.now()]), on failure the
    [catch] block. *)
Definition after_save (k : nat) (b : branch) (ok : bool) (s : watch) : watch :=
  let s := log_mark (SaveEnded (clock s) ok) s in
  match b, ok with
  | Immediate now, true =>
      set_tasks (<[k := Task b AwaitHash]> (tasks s)) (set_lastSaveTime now s)
  | Deferred, true =>
      set_tasks (<[k := Task b AwaitHash]> (tasks s))
        (set_lastSaveTime (clock s) s)
  | Immediate _, false => set_tasks (delete k (tasks s)) s
  | Deferred, false => set_tasks (delete k (tasks s)) (set_pendingSave false s)
  end.

(** The rest of the [try] block once [calculateFilesHash] has returned:
    [saveCount++; pendingSave = false]. *)
Definition after_hash (k : nat) (s : watch) : watch :=
  set_tasks (delete k (tasks s))
    (set_pendingSave false (set_saveCount (S (saveCount s)) s)).

(** What the event loop can do next. *)
Inductive event :=
| Change                          (* a watcher (or the keychain poll) calls handleFileChange *)
| Fire (h : nat)                  (* timer h is due and its callback runs *)
| SaveSettles (k : nat) (ok : bool) (* saveProfileSilent of task k returns or throws *)
| HashSettles (k : nat)           (* calculateFilesHash of task k returns *)
| Tick (dt : Z).                  (* dt milliseconds pass *)

(** One turn of the event loop; [None] when the event cannot happen in [s]
    (a timer never fires early, only a suspended callback is resumed). *)
Definition step (s : watch) (e : event) : option watch :=
  match e with
  | Change => Some (handleFileChange s)
  | Fire h =>
      match timers s !! h with
      | Some tm =>
          if (due tm <=? clock s)%Z then
            let s := set_timers (delete h (timers s)) s in
            Some (match cb tm with
                  | DebounceCb => debounce_callback s
                  | DeferredCb => deferred_callback s
                  end)
          else None
      | None => None
      end
  | SaveSettles k ok =>
      match tasks s !! k with
      | Some (Task b AwaitSave) => Some (after_save k b ok s)
      | _ => None
      end
  | HashSettles k =>
      match tasks s !! k with
      | Some (Task _ AwaitHash) => Some (after_hash k s)
      | _ => None
      end
  | Tick dt => if (0 <=? dt)%Z then Some (set_clock (clock s + dt) s) else None
  end.

Fixpoint run (s : watch) (es : list event) : option watch :=
  match es with
  | [] => Some s
  | e :: es' => match step s e with
                | Some s' => run s' es'
                | None => None
                end
  end.

(** Executions of [saveProfileSilent] that have started and not settled. *)
Definition is_saving (t : task) : bool :=
  match t_phase t with AwaitSave => true | AwaitHash => false end.

Definition saves_in_flight (s : watch) : nat :=
  length (filter (λ kt, is_saving kt.2 = true) (map_to_list (tasks s))).

(** ** 2. Strings *)

(** The white space [String.prototype.trim] strips, among single bytes:
    TAB, LF, VT, FF, CR and SPACE. *)
Definition is_space (c : ascii) : bool :=
  let n := nat_of_ascii c in
  Nat.eqb n 9 || Nat.eqb n 10 || Nat.eqb n 11 || Nat.eqb n 12 ||
  Nat.eqb n 13 || Nat.eqb n 32.

Fixpoint trimStart (s : string) : string :=
  match s with
  | String c s' => if is_space c then trimStart s' else s
  | EmptyString => EmptyString
  end.

Fixpoint trimEnd (s : string) : string :=
  match s with
  | EmptyString => EmptyString
  | String c s' =>
      match trimEnd s' with
      | EmptyString => if is_space c then EmptyString else String c EmptyString
      | r => String c r
      end
  end.

Definition trim (s : string) : string := trimEnd (trimStart s).

(** [hay.includes(needle)]. *)
Fixpoint includes (hay needle : string) : bool :=
  String.prefix needle hay ||
  match hay with
  | EmptyString => false
  | String _ hay' => includes hay' needle
  end.

(** [s.split(sep)] for a one-character separator. *)
Fixpoint split_on (sep : ascii) (s : string) : list string :=
  match s with
  | EmptyString => [EmptyString]
  | String c s' =>
      if Ascii.eqb c sep then EmptyString :: split_on sep s'
      else match split_on sep s' with
           | w :: ws => String c w :: ws
           | [] => [String c EmptyString]
           end
  end.

Definition is_empty (s : string) : bool :=
  match s with EmptyString => true | _ => false end.

(** A path as the list of its components; [path.join] drops empty ones. *)
Definition path := list string.

Definition components (s : string) : path :=
  List.filter (λ w, negb (is_empty w)) (split_on "/" s).

(** [PROFILE_NAME_REGEX = /^[a-z0-9-]+$/]. *)
Definition profile_char (c : ascii) : bool :=
  let n := nat_of_ascii c in
  (Nat.leb 97 n && Nat.leb n 122) || (Nat.leb 48 n && Nat.leb n 57) ||
  Nat.eqb n 45.

Definition PROFILE_NAME_REGEX_test (name : string) : bool :=
  negb (is_empty name) && forallb profile_char (list_ascii_of_string name).

(** ** 3. The file system: regular files and directories *)

#[warnings="-register-all"]
Inductive node :=
| File (data : string)
| Dir (entries : list (string * node)).

Definition isFile (n : node) : bool :=
  match n with File _ => true | Dir _ => false end.

Definition isDirectory (n : node) : bool :=
  match n with File _ => false | Dir _ => true end.

Fixpoint lookup_entry (x : string) (es : list (string * node)) : option node :=
  match es with
  | [] => None
  | (y, c) :: es' => if String.eqb x y then Some c else lookup_entry x es'
  end.

(** Replaces the entry named [x], or adds it. *)
Fixpoint set_entry (x : string) (c : node) (es : list (string * node))
  : list (string * node) :=
  match es with
  | [] => [(x, c)]
  | (y, c') :: es' =>
      if String.eqb x y then (y, c) :: es' else (y, c') :: set_entry x c es'
  end.

(** [fs.stat(p)] relative to [n]; [None] is ENOENT (or ENOTDIR). *)
Fixpoint stat (n : node) (p : path) : option node :=
  match p with
  | [] => Some n
  | x :: p' =>
      match n with
      | Dir es => lookup_entry x es ≫= λ c, stat c p'
      | File _ => None
      end
  end.

(** Puts [f (what is at p)] at [p], creating the directories on the way
    ([mkdir -p]); a regular file met on the way stops it (ENOTDIR) and
    leaves the tree as it was. *)
Fixpoint graft (p : path) (f : option node → node) (o : option node) : node :=
  match p with
  | [] => f o
  | x :: p' =>
      match o with
      | Some (Dir es) => Dir (set_entry x (graft p' f (lookup_entry x es)) es)
      | Some (File d) => File d
      | None => Dir [(x, graft p' f None)]
      end
  end.

(** Writing a regular file: creates or overwrites it; a directory in its
    place is left alone (EISDIR). *)
Definition put_file (data : string) (o : option node) : node :=
  match o with
  | Some (Dir es) => Dir es
  | _ => File data
  end.

Definition write_file (p : path) (data : string) (fs : node) : node :=
  graft p (put_file data) (Some fs).

(** Names in a directory are unique, at every level. *)
Fixpoint wf (n : node) : bool :=
  match n with
  | File _ => true
  | Dir es =>
      bool_decide (NoDup (map fst es)) && forallb (λ e, wf (snd e)) es
  end.

(** All regular files below [n], each with its path relative to [n]. *)
Fixpoint files_of (n : node) : list (path * string) :=
  match n with
  | File d => [([], d)]
  | Dir es =>
      flat_map (λ e, map (λ pd, (fst e :: fst pd, snd pd)) (files_of (snd e))) es
  end.

(** Two paths part ways at some component: neither is a prefix of the other. *)
Fixpoint diverge (p q : path) : bool :=
  match p, q with
  | x :: p', y :: q' => if String.eqb x y then diverge p' q' else true
  | _, _ => false
  end.

(** [p] can receive a regular file: no regular file above it, no directory
    at it. *)
Fixpoint vacant (o : option node) (p : path) : bool :=
  match p with
  | [] => match o with Some (Dir _) => false | _ => true end
  | x :: p' =>
      match o with
      | None => true
      | Some (File _) => false
      | Some (Dir es) => vacant (lookup_entry x es) p'
      end
  end.

(** Pairwise, the paths of a list part ways. *)
Fixpoint spread (l : list path) : Prop :=
  match l with
  | [] => True
  | p :: l' => Forall (λ q, diverge p q = true) l' ∧ spread l'
  end.

(** ** 4. The archive and the external tools *)

(** What a zip archive holds for this script: regular files under entry
    names.  [archive.directory(src, dest)] contributes the files below
    [src] under [dest/...]; [archive.file(src, {name})] one file. *)
Definition archive := list (path * string).

Definition archive_directory (src : node) (dest : path) : archive :=
  map (λ pd, (dest ++ fst pd, snd pd)) (files_of src).

Definition archive_file (data : string) (name : path) : archive :=
  [(name, data)].

(** [unzip -q -o zip -d dir] on the entries of a readable archive:
    each is written below [dir], later entries overwrite ([-o]). *)
Definition unzip_entries (a : archive) (dir : node) : node :=
  fold_left (λ acc pd, write_file (fst pd) (snd pd) acc) a dir.

(** archiver's zip writer, the [unzip] reader ([None] when it exits with a
    non-zero code) and [Buffer]'s base64. *)
Class Codec := {
  blob : Type;
  zip_write : archive → blob;
  zip_read : blob → option archive;
  base64_encode : blob → string;
  base64_decode : string → blob
}.

(** [JSON] and what the script does with parsed values.  [keychain_store]
    is [setKeychainCredentials]: the value it stores, [None] when it
    returns [false].  [credentials_incomplete content] is the [try] block
    of [verifyLocalFiles]: [None] when [JSON.parse] (or the field access)
    throws, else the value of [!creds.access_token && !creds.refresh_token]. *)
Class Json := {
  json : Type;
  JSON_parse : string → option json;
  JSON_stringify : json → string;
  JSON_stringify_indent2 : json → string;
  keychain_store : json → option json;
  credentials_incomplete : string → option bool
}.

Class Crypto := { sha256_hex : string → string }.

Class Http := { curl : string → string }.

(** [BACKUP_PATHS]. *)
Record backup_path := BackupPath { source : string; dest : string }.

Definition BACKUP_PATHS : list backup_path :=
  [ BackupPath "~/.claude" ".claude";
    BackupPath "~/.claude.json" ".claude.json";
    BackupPath "~/.claude.json.backup" ".claude.json.backup" ].

(** [expandHome]: the tree of the model is rooted at [os.homedir()], so
    [~/x] is the path [x] in it (every path the script expands starts
    with [~/]). *)
Definition expandHome (filepath : string) : path :=
  if String.prefix "~/" filepath
  then components (String.substring 2 (String.length filepath - 2) filepath)
  else components filepath.

Definition isMacOS (platform : string) : bool := String.eqb platform "darwin".

(** ** 5. Store: [verifyLocalFiles], [saveProfile], [saveProfileSilent] *)

Record verification := Verification { valid : bool; issues : list string }.

(** A row of a [checks] table.  The three tables of the script carry
    different optional fields; an absent field is the falsy [false]. *)
Record check := Check {
  c_path : string;
  c_essential : bool;
  c_description : string;
  c_skipIfKeychainExists : bool;
  c_isDirectory : bool
}.

Definition flag_missing (prefix : string) (ck : check) (v : verification)
  : verification :=
  {| valid := false; issues := issues v ++ [prefix +:+ c_description ck] |}.

Definition add_issue (msg : string) (v : verification) : verification :=
  {| valid := valid v; issues := issues v ++ [msg] |}.

Definition local_checks (platform : string) : list check :=
  [ Check "~/.claude/.credentials.json" (negb (isMacOS platform))
          "Claude credentials (file)" (isMacOS platform) false;
    Check "~/.claude.json" true "Claude configuration" false false;
    Check "~/.claude.json.backup" false "Configuration backup" false false ].

Definition local_check `{Json} (home : node) (hasKeychainCreds : bool)
    (v : verification) (ck : check) : verification :=
  if c_skipIfKeychainExists ck && hasKeychainCreds then v
  else
    match stat home (expandHome (c_path ck)) with
    | Some (File content) =>
        if includes (c_path ck) ".credentials.json" then
          match credentials_incomplete content with
          | Some true => add_issue "Credentials file exists but may be incomplete" v
          | Some false => v
          | None => add_issue "Credentials file could not be parsed" v
          end
        else v
    | Some (Dir _) => v
    | None =>
        if c_essential ck then flag_missing "Missing required file: " ck v
        else v
    end.

Definition verifyLocalFiles `{Json} (platform : string) (home : node)
    (keychain : option json) : verification :=
  let hasKeychainCreds := isMacOS platform && bool_decide (is_Some keychain) in
  fold_left (local_check home hasKeychainCreds) (local_checks platform)
    {| valid := true; issues := [] |}.

(** The loop "Add files to archive" of [saveProfile], with [hasFiles]. *)
Definition add_item (home : node) (acc : archive * bool) (item : backup_path)
  : archive * bool :=
  match stat home (expandHome (source item)) with
  | Some (Dir es) =>
      (fst acc ++ archive_directory (Dir es) (components (dest item)), true)
  | Some (File d) =>
      (fst acc ++ archive_file d (components (dest item)), true)
  | None => acc
  end.

Definition add_keychain `{Json} (platform : string) (keychain : option json)
    (acc : archive * bool) : archive * bool :=
  if isMacOS platform then
    match keychain with
    | Some keychainCreds =>
        (fst acc ++ archive_file (JSON_stringify_indent2 keychainCreds)
                      (components ".macos.credentials.json"), true)
    | None => acc
    end
  else acc.

Definition collect `{Json} (platform : string) (home : node)
    (keychain : option json) : archive * bool :=
  add_keychain platform keychain
    (fold_left (add_item home) BACKUP_PATHS ([], false)).

(** The same loop in [saveProfileSilent]: no [hasFiles]. *)
Definition add_item_silent (home : node) (acc : archive) (item : backup_path)
  : archive :=
  match stat home (expandHome (source item)) with
  | Some (Dir es) => acc ++ archive_directory (Dir es) (components (dest item))
  | Some (File d) => acc ++ archive_file d (components (dest item))
  | None => acc
  end.

Definition add_keychain_silent `{Json} (platform : string)
    (keychain : option json) (acc : archive) : archive :=
  if isMacOS platform then
    match keychain with
    | Some keychainCreds =>
        acc ++ archive_file (JSON_stringify_indent2 keychainCreds)
                 (components ".macos.credentials.json")
    | None => acc
    end
  else acc.

Definition collect_silent `{Json} (platform : string) (home : node)
    (keychain : option json) : archive :=
  add_keychain_silent platform keychain
    (fold_left (add_item_silent home) BACKUP_PATHS []).

Inductive failure :=
| InvalidProfileName
| VerificationFailed (issues : list string)
| NoContent
| GistUnavailable
| UploadFailed (stdout : string)
| ProfileNotFound
| EmptyDownload.

(** How an operation ends: it returns, it ends the process with
    [process.exit(1)], or it throws to its caller. *)
Inductive outcome := Completed | Exit1 (f : failure) | Thrown (f : failure).

(** What a store does outside the local tree: the archive it finalizes and
    the [gh gist edit --add] it runs. *)
Inductive effect :=
| Finalize (a : archive)
| GistEdit (gistId filename content : string).

Record cmd_result := CmdResult { code : Z; stdout : string }.

(** The remote side as a store sees it: [findOrCreateGist] ([None] when it
    ends the process) and the result of [gh gist edit]. *)
Record github := GitHub {
  gistId : option string;
  gist_edit : string → string → string → cmd_result
}.

Definition upload_failed (r : cmd_result) : bool :=
  negb (code r =? 0)%Z && negb (includes (stdout r) "Added").

Definition saveProfile `{Codec, Json} (profileName platform : string)
    (home : node) (keychain : option json) (gh : github)
  : outcome * list effect :=
  if negb (PROFILE_NAME_REGEX_test profileName) then (Exit1 InvalidProfileName, [])
  else
    let verification := verifyLocalFiles platform home keychain in
    if negb (valid verification)
    then (Exit1 (VerificationFailed (issues verification)), [])
    else
      let '(a, hasFiles) := collect platform home keychain in
      if negb hasFiles then (Exit1 NoContent, [])
      else
        match gistId gh with
        | None => (Exit1 GistUnavailable, [Finalize a])
        | Some id =>
            let base64Content := base64_encode (zip_write a) in
            let filename := profileName +:+ ".zip.base64" in
            let uploadResult := gist_edit gh id filename base64Content in
            let effects := [Finalize a; GistEdit id filename base64Content] in
            if upload_failed uploadResult
            then (Exit1 (UploadFailed (stdout uploadResult)), effects)
            else (Completed, effects)
        end.

Definition saveProfileSilent `{Codec, Json} (profileName platform : string)
    (home : node) (keychain : option json) (gh : github)
  : outcome * list effect :=
  let a := collect_silent platform home keychain in
  match gistId gh with
  | None => (Exit1 GistUnavailable, [Finalize a])
  | Some id =>
      let base64Content := base64_encode (zip_write a) in
      let filename := profileName +:+ ".zip.base64" in
      let uploadResult := gist_edit gh id filename base64Content in
      let effects := [Finalize a; GistEdit id filename base64Content] in
      if upload_failed uploadResult
      then (Thrown (UploadFailed (stdout uploadResult)), effects)
      else (Completed, effects)
  end.

Definition is_upload (e : effect) : bool :=
  match e with GistEdit _ _ _ => true | Finalize _ => false end.

(** ** 6. The verification gates on a downloaded profile *)

Definition downloaded_checks (platform : string) : list check :=
  [ Check ".claude/.credentials.json" (negb (isMacOS platform))
          "Claude credentials (file)" false false;
    Check ".macos.credentials.json" (isMacOS platform)
          "Claude credentials (macOS)" false false;
    Check ".claude.json" true "Claude configuration" false false ].

Definition downloaded_check (extractDir : node) (v : verification) (ck : check)
  : verification :=
  match stat extractDir (components (c_path ck)) with
  | Some stats =>
      if negb (isFile stats) && c_essential ck
      then flag_missing "Missing: " ck v
      else v
  | None =>
      if c_essential ck then flag_missing "Missing: " ck v else v
  end.

(** A check lets the profile through: it is not essential, or a regular
    file is at its path. *)
Definition check_ok (extractDir : node) (ck : check) : bool :=
  negb (c_essential ck) ||
  match stat extractDir (components (c_path ck)) with
  | Some (File _) => true
  | _ => false
  end.

(** The checks of [verifyDownloadedProfile] on the extracted tree. *)
Definition verify_extracted (platform : string) (extractDir : node)
  : verification :=
  fold_left (downloaded_check extractDir) (downloaded_checks platform)
    {| valid := true; issues := [] |}.

Definition verifyDownloadedProfile `{Codec} (platform : string) (zip : blob)
  : verification :=
  match zip_read zip with
  | None => {| valid := false; issues := ["Failed to extract profile archive"] |}
  | Some a => verify_extracted platform (unzip_entries a (Dir []))
  end.

(** The [checks] table of the standalone [verifyProfile] and its loop,
    which computes [hasEssentialFiles] and [foundFiles]. *)
Definition profile_checks : list check :=
  [ Check ".claude/.credentials.json" true "Claude credentials" false false;
    Check ".claude.json" true "Claude configuration" false false;
    Check ".claude.json.backup" false "Configuration backup" false false;
    Check ".claude" false "Claude directory" false true ].

Definition profile_check (extractDir : node) (acc : bool * list string)
    (ck : check) : bool * list string :=
  match stat extractDir (components (c_path ck)) with
  | Some stats =>
      if c_isDirectory ck then
        if isDirectory stats then (fst acc, snd acc ++ [c_path ck]) else acc
      else
        if isFile stats then (fst acc, snd acc ++ [c_path ck])
        else if c_essential ck then (false, snd acc) else acc
  | None => if c_essential ck then (false, snd acc) else acc
  end.

Definition verifyProfile_checks (extractDir : node) : bool * list string :=
  fold_left (profile_check extractDir) profile_checks (true, []).

(** ** 7. Restore: download, verification, copy-over *)

(** [gistData.files[name]] of the [gh api /gists/<id>] response. *)
Record gist_file := GistFile {
  truncated : bool;
  content : string;
  raw_url : string;
  file_size : Z
}.

(** What a read of the gist returns: [findOrCreateGist], the output of
    [gh gist view --files] and the [files] object of the API response. *)
Record gist_view := GistView {
  view_id : option string;
  listing : string;
  files : gmap string gist_file
}.

(** [restoreProfile]: [let base64Data; if (fileData.truncated) ... else ...]. *)
Definition restore_base64Data `{Http} (fileData : gist_file) : string :=
  if truncated fileData then trim (curl (raw_url fileData))
  else trim (content fileData).

Definition restore_download `{Codec, Http} (view : gist_view)
    (profileName : string) : failure + blob :=
  if negb (includes (listing view) (profileName +:+ ".zip.base64"))
  then inl ProfileNotFound
  else
    match files view !! (profileName +:+ ".zip.base64") with
    | None => inl ProfileNotFound
    | Some fileData =>
        let base64Data := restore_base64Data fileData in
        if is_empty base64Data then inl EmptyDownload
        else inr (base64_decode base64Data)
    end.

(** The same lines of [verifyProfile]. *)
Definition verify_base64Data `{Http} (fileData : gist_file) : string :=
  if truncated fileData then trim (curl (raw_url fileData))
  else trim (content fileData).

Definition verify_download `{Codec, Http} (view : gist_view)
    (profileName : string) : failure + blob :=
  if negb (includes (listing view) (profileName +:+ ".zip.base64"))
  then inl ProfileNotFound
  else
    match files view !! (profileName +:+ ".zip.base64") with
    | None => inl ProfileNotFound
    | Some fileData =>
        let base64Data := verify_base64Data fileData in
        if is_empty base64Data then inl EmptyDownload
        else inr (base64_decode base64Data)
    end.

(** What a download yields from the base64 text it selected. *)
Definition decoded `{Codec} (base64Data : string) : failure + blob :=
  if is_empty base64Data then inl EmptyDownload
  else inr (base64_decode base64Data).

(** [cp -r] onto what is (or is not) already there: a regular file
    replaces a regular file, a directory is merged into a directory entry
    by entry, and a file and a directory never replace one another (cp
    reports the error and leaves the destination). *)
Fixpoint cp_onto (src : node) (o : option node) {struct src} : node :=
  match src, o with
  | _, None => src
  | File d, Some (File _) => File d
  | File _, Some (Dir es) => Dir es
  | Dir _, Some (File d) => File d
  | Dir ks, Some (Dir es) =>
      Dir (fold_left
             (λ acc e,
                set_entry (fst e) (cp_onto (snd e) (lookup_entry (fst e) acc)) acc)
             ks es)
  end.

Definition basename (p : path) : string := List.last p "".

(** [cp -r sourcePath destPath] for a directory [src] found at
    [sourcePath]: when [destPath] is an existing directory the copy goes
    INTO it, to [destPath/basename(sourcePath)]; when [destPath] does not
    exist it becomes the copy; a regular file at [destPath] is an error. *)
Definition cp_r (src : node) (sourcePath destPath : path) (fs : node) : node :=
  match stat fs destPath with
  | Some (Dir _) => graft (destPath ++ [basename sourcePath]) (cp_onto src) (Some fs)
  | Some (File _) => fs
  | None => graft destPath (λ _, src) (Some fs)
  end.

(** [fsPromises.copyFile(sourcePath, destPath)], errors caught by the loop. *)
Definition copyFile (data : string) (destPath : path) (fs : node) : node :=
  write_file destPath data fs.

(** One turn of the loop "Restore files from extracted directory". *)
Definition restore_item (extractDir : node) (home : node) (item : backup_path)
  : node :=
  let sourcePath := components (dest item) in
  let destPath := expandHome (source item) in
  match stat extractDir sourcePath with
  | Some (Dir es) => cp_r (Dir es) sourcePath destPath home
  | Some (File d) => copyFile d destPath home
  | None => home
  end.

(** [f] never makes a path disappear from what it is applied to. *)
Definition keeps (f : option node → node) : Prop :=
  ∀ (o : option node) (q : path),
    is_Some (o ≫= λ n, stat n q) → is_Some (stat (f o) q).

(** The loop "Restore files from extracted directory". *)
Definition restore_copy (extractDir : node) (home : node) : node :=
  fold_left (restore_item extractDir) BACKUP_PATHS home.

Definition restore_keychain `{Json} (platform : string) (extractDir : node)
    (keychain : option json) : option json :=
  if isMacOS platform then
    match stat extractDir (components ".macos.credentials.json") with
    | Some (File macosCredsData) =>
        match JSON_parse macosCredsData with
        | Some macosCreds =>
            match keychain_store macosCreds with
            | Some stored => Some stored
            | None => keychain
            end
        | None => keychain
        end
    | _ => keychain
    end
  else keychain.

(** [unzip -q -o zipPath -d extractDir] into a fresh directory; the exit
    code is not looked at here. *)
Definition extract `{Codec} (zip : blob) : node :=
  match zip_read zip with
  | Some a => unzip_entries a (Dir [])
  | None => Dir []
  end.

Definition restoreProfile `{Codec, Json, Http} (profileName platform : string)
    (home : node) (keychain : option json) (view : gist_view)
  : outcome * node * option json :=
  if negb (PROFILE_NAME_REGEX_test profileName)
  then (Exit1 InvalidProfileName, home, keychain)
  else
    match view_id view with
    | None => (Exit1 GistUnavailable, home, keychain)
    | Some _ =>
        match restore_download view profileName with
        | inl f => (Exit1 f, home, keychain)
        | inr zipBuffer =>
            let verification := verifyDownloadedProfile platform zipBuffer in
            if negb (valid verification)
            then (Exit1 (VerificationFailed (issues verification)), home, keychain)
            else
              let extractDir := extract zipBuffer in
              (Completed,
               restore_copy extractDir home,
               restore_keychain platform extractDir keychain)
        end
    end.

(** ** 8. The fingerprint: [calculateFilesHash] *)

(** The order of [Array.prototype.sort()] without a comparator, on byte
    strings: lexicographic by character code. *)
Definition str_le (a b : string) : Prop := String.leb a b = true.

#[global] Instance str_le_dec : RelDecision str_le.
Proof. intros a b. unfold str_le. apply _. Defined.

Definition js_sort (l : list string) : list string := merge_sort str_le l.

Definition readFile (fs : node) (p : path) : option string :=
  match stat fs p with
  | Some (File d) => Some d
  | _ => None
  end.

(** What one turn of the loop over [BACKUP_PATHS] feeds to [hash.update].
    [readdir sourcePath] is the listing [fsPromises.readdir(sourcePath,
    {recursive: true})] returns, in whatever order the system enumerates
    it; [files.sort()] sorts it in place, so the loop over [files] that
    follows runs in sorted order too. *)
Definition hash_item (readdir : path → list string) (home : node)
    (item : backup_path) : list string :=
  let sourcePath := expandHome (source item) in
  match stat home sourcePath with
  | Some (Dir _) =>
      let files := js_sort (readdir sourcePath) in
      String.concat "|" files ::
      omap (λ file, readFile home (sourcePath ++ components file)) files
  | Some (File d) => [d]
  | None => []
  end.

Definition hash_keychain `{Json} (platform : string) (keychain : option json)
  : list string :=
  if isMacOS platform then
    match keychain with
    | Some keychainCreds => [JSON_stringify keychainCreds]
    | None => []
    end
  else [].

(** The digest of everything fed to [hash.update], in order. *)
Definition calculateFilesHash `{Crypto, Json} (readdir : path → list string)
    (platform : string) (home : node) (keychain : option json) : string :=
  sha256_hex
    (String.concat ""
       (flat_map (hash_item readdir home) BACKUP_PATHS ++
        hash_keychain platform keychain)).

(** One enumeration of a directory, as relative names. *)
Fixpoint readdir_recursive (n : node) : list string :=
  match n with
  | File _ => []
  | Dir es =>
      flat_map (λ e, fst e :: map (λ r, fst e +:+ "/" +:+ r)
                                  (readdir_recursive (snd e))) es
  end.

(** What one source contributes to the archive. *)
Definition item_entries (home : node) (item : backup_path) : archive :=
  match stat home (expandHome (source item)) with
  | Some (Dir es) => archive_directory (Dir es) (components (dest item))
  | Some (File d) => archive_file d (components (dest item))
  | None => []
  end.

Definition keychain_entries `{Json} (platform : string) (keychain : option json)
  : archive :=
  if isMacOS platform then
    match keychain with
    | Some keychainCreds =>
        archive_file (JSON_stringify_indent2 keychainCreds)
          (components ".macos.credentials.json")
    | None => []
    end
  else [].

(** A codec that keeps the entry list as it is ([None] is a blob [unzip]
    cannot read; text that does not start like a zip decodes to it), and a
    [curl] that answers with a marked copy of the URL: instances to run
    the statements on. *)
Definition plain_codec : Codec :=
  {| blob := option archive; zip_write := λ a, Some a; zip_read := λ b, b;
     base64_encode := λ _, "UEsDBA==";
     base64_decode := λ s, if String.prefix "UEsDB" s then Some [] else None |}.

Definition echo_http : Http := {| curl := λ url, "raw:" +:+ url +:+ " " |}.

Definition text_json : Json :=
  {| json := string; JSON_parse := λ s, Some s; JSON_stringify := λ j, j;
     JSON_stringify_indent2 := λ j, j; keychain_store := λ j, Some j;
     credentials_incomplete := λ s, Some (is_empty s) |}.

Definition id_crypto : Crypto := {| sha256_hex := λ s, s |}.

(** Scenario data: a home directory with a configuration, a machine with
    no configuration at all, and a remote that accepts every upload. *)
Definition sample_home : node :=
  Dir [ (".claude", Dir [ ("settings.json", File "{}");
                          ("projects", Dir [("a.jsonl", File "x")]) ]);
        (".claude.json", File "cfg") ].

Definition accepting_github : github :=
  GitHub (Some "abc123") (λ _ _ _, CmdResult 0 "").

(** An extracted profile as macOS stores it: the keychain entry and the
    configuration file, no credentials file. *)
Definition mac_profile : node :=
  Dir [ (".macos.credentials.json", File "{}"); (".claude.json", File "{}") ].

(** An extracted profile as other platforms store it. *)
Definition file_profile : node :=
  Dir [ (".claude", Dir [(".credentials.json", File "{}")]);
        (".claude.json", File "{}") ].

(** A home whose [.claude] directory exists already and holds, from an
    earlier restore, a nested [.claude] of its own; and an extracted
    profile with a [.claude/settings.json]. *)
Definition nested_home : node :=
  Dir [ (".claude", Dir [ ("settings.json", File "local");
                          (".claude", Dir [("settings.json", File "mine")]) ]);
        (".claude.json", File "old") ].

Definition incoming_profile : node :=
  Dir [ (".claude", Dir [ ("settings.json", File "theirs");
                          (".credentials.json", File "{}") ]);
        (".claude.json", File "cfg") ].

(** Wall-clock time at which the scenarios below start watching. *)
Definition t_boot : Z := 1700000000000.

(** A change, the debounce timer (handle 0) firing two seconds later, and the
    immediate save it starts (task 1). *)
Definition first_save_starts : list event := [Change; Tick 2000; Fire 0].

(** The specification's reading of a failed save: flag and baseline both
    untouched, on every path. *)
Definition failed_save_keeps_flag_and_baseline : Prop :=
  ∀ (es : list event) (s s' : watch) (k : nat),
    run (boot t_boot) es = Some s →
    step s (SaveSettles k false) = Some s' →
    pendingSave s' = pendingSave s ∧ lastSaveTime s' = lastSaveTime s.

(** ** 9. Watch mode: start-up, stop and observations on a run *)

Definition is_start (m : mark) : bool :=
  match m with SaveStarted _ => true | SaveEnded _ _ => false end.

Definition is_success (m : mark) : bool :=
  match m with SaveEnded _ true => true | _ => false end.

(** Saves started, and saves whose upload succeeded, so far. *)
Definition saves_started (s : watch) : nat :=
  length (List.filter is_start (journal s)).

Definition saves_succeeded (s : watch) : nat :=
  length (List.filter is_success (journal s)).

(** Callbacks that have uploaded and are awaiting [calculateFilesHash]. *)
Definition awaiting_hash (s : watch) : nat :=
  size (filter (λ kt, is_saving kt.2 = false) (tasks s)).

(** The clock reading at the most recent [Change] of a run ([seen] before
    the run). *)
Fixpoint last_change_time (s : watch) (es : list event) (seen : option Z)
  : option Z :=
  match es with
  | [] => seen
  | e :: es' =>
      match step s e with
      | Some s' =>
          last_change_time s' es'
            (match e with Change => Some (clock s) | _ => seen end)
      | None => seen
      end
  end.

(** Every armed timer is the one [pendingSaveTimeout] refers to. *)
Definition one_timer (s : watch) : Prop :=
  ∀ (h : nat) (tm : timer), timers s !! h = Some tm → pendingSaveTimeout s = Some h.

(** Every armed timer is due no earlier than [debounceDelay] after the
    change last seen. *)
Definition timers_after (seen : option Z) (s : watch) : Prop :=
  ∀ (h : nat) (tm : timer),
    timers s !! h = Some tm → ∃ c, seen = Some c ∧ (c + debounceDelay ≤ due tm)%Z.

(** Handles are handed out in increasing order. *)
Definition handles_fresh (s : watch) : Prop :=
  ∀ (k : nat), is_Some (tasks s !! k) → k < fresh s.

(** The [SIGINT] handler up to [process.exit(0)]: the watchers and the
    keychain poll are closed, and [if (pendingSaveTimeout)
    clearTimeout(pendingSaveTimeout)]. *)
Definition sigint (s : watch) : watch :=
  match pendingSaveTimeout s with
  | Some h => clearTimeout h s
  | None => s
  end.





(** [fs.stat] succeeds. *)
Definition exists_at (fs : node) (p : path) : bool :=
  match stat fs p with Some _ => true | None => false end.

(** ** 10. Restore and remote listing: further data *)


(** A home as a store on another platform than macOS finds it, the archive
    it builds, a codec that maps the one stored text back to that archive,
    and the read response of the gist that holds it. *)
Definition donor_home : node :=
  Dir [ (".claude", Dir [ (".credentials.json", File "{}");
                          ("settings.json", File "theirs") ]);
        (".claude.json", File "cfg") ].

Definition stored_archive : archive :=
  [ ([".claude"; ".credentials.json"], "{}");
    ([".claude"; "settings.json"], "theirs");
    ([".claude.json"], "cfg") ].

Definition table_codec : Codec :=
  {| blob := option archive; zip_write := λ a, Some a; zip_read := λ b, b;
     base64_encode := λ _, "UEsDBA==";
     base64_decode := λ s, if String.eqb s "UEsDBA==" then Some stored_archive
                           else None |}.

Definition stored_view : gist_view :=
  GistView (Some "abc123") "work.zip.base64"
    {[ "work.zip.base64" := GistFile false ("UEsDBA==" +:+ String "010" "") "" 9 ]}.

(** ** 11. Listing and deleting profiles *)

Definition newline : ascii := "010"%char.

(** [s.endsWith(suffix)]. *)
Fixpoint endsWith (s suffix : string) : bool :=
  String.eqb s suffix ||
  match s with
  | EmptyString => false
  | String _ s' => endsWith s' suffix
  end.

Fixpoint string_drop (n : nat) (s : string) : string :=
  match n, s with
  | S n', String _ s' => string_drop n' s'
  | _, _ => s
  end.

(** [s.replace(pattern, '')] with a string pattern: the first occurrence
    of [pattern] is taken out. *)
Fixpoint remove_first (pattern s : string) : string :=
  if String.prefix pattern s then string_drop (String.length pattern) s
  else match s with
       | EmptyString => EmptyString
       | String c s' => String c (remove_first pattern s')
       end.

(** The file of a profile in the gist. *)
Definition profile_file (profileName : string) : string :=
  profileName +:+ ".zip.base64".

(** [listProfiles] from the output of [gh gist view --files] on: the
    profile names it prints, in order (none: "No saved profiles found"). *)
Definition listProfiles (stdout : string) : list string :=
  let allFiles := split_on newline (trim stdout) in
  let files := List.filter (λ f, endsWith f ".zip.base64") allFiles in
  map (remove_first ".zip.base64") files.

(** The one remote write of a delete: [PATCH] the gist with the file set
    to [null]. *)
Inductive deletion := PatchNull (gistId file : string).

Inductive delete_result :=
| Deleted
| DeleteRefused (f : failure)
| DeleteFailed.

(** [deleteProfile]: the name test, [findOrCreateGist], the listing, the
    exact-match test [files.includes(profileFile)], the [PATCH] and its
    exit code. *)
Definition deleteProfile (profileName : string) (gistId : option string)
    (stdout : string) (updateResult : cmd_result)
  : delete_result * list deletion :=
  if negb (PROFILE_NAME_REGEX_test profileName)
  then (DeleteRefused InvalidProfileName, [])
  else
    match gistId with
    | None => (DeleteRefused GistUnavailable, [])
    | Some id =>
        let files := List.filter (λ f, negb (is_empty f))
                       (split_on newline (trim stdout)) in
        let profileFile := profile_file profileName in
        if negb (existsb (String.eqb profileFile) files)
        then (DeleteRefused ProfileNotFound, [])
        else if (code updateResult =? 0)%Z
             then (Deleted, [PatchNull id profileFile])
             else (DeleteFailed, [PatchNull id profileFile])
    end.

(** The listing [gh gist view --files] prints for a gist that holds the
    read-me created with it and the files of the given profiles, the
    read-me sorted anywhere among them. *)
Definition gist_listing (before after : list string) : string :=
  String.concat (String newline "")
    (map profile_file before ++ "claude-profiles-readme.md" :: map profile_file after)
  +:+ String newline "".

(** No character of [s] is [c]; the last character of [s], if any, is not
    white space. *)
Definition lacks (c : ascii) (s : string) : bool :=
  forallb (λ x, negb (Ascii.eqb x c)) (list_ascii_of_string s).

Fixpoint ends_clean (s : string) : bool :=
  match s with
  | EmptyString => true
  | String c EmptyString => negb (is_space c)
  | String _ s' => ends_clean s'
  end.

Definition starts_clean (s : string) : bool :=
  match s with
  | EmptyString => true
  | String c _ => negb (is_space c)
  end.

(** ** 12. The standalone [verifyProfile] and the command line *)

(** How [verifyProfile] ends: with [process.exit(1)] from its [catch]
    (the archive that [unzip] cannot read apart, which has a message of its
    own), or by returning after it has logged its verdict,
    [hasEssentialFiles], and counted [foundFiles]. *)
Inductive verify_result :=
| VerifyExit1 (f : failure)
| VerifyExtractFailed
| Verified (hasEssentialFiles : bool) (foundFiles : list string).

Definition verifyProfile `{Codec, Http} (profileName : string) (view : gist_view)
  : verify_result :=
  if negb (PROFILE_NAME_REGEX_test profileName)
  then VerifyExit1 InvalidProfileName
  else
    match view_id view with
    | None => VerifyExit1 GistUnavailable
    | Some _ =>
        match verify_download view profileName with
        | inl f => VerifyExit1 f
        | inr zipBuffer =>
            match zip_read zipBuffer with
            | None => VerifyExtractFailed
            | Some a =>
                let r := verifyProfile_checks (unzip_entries a (Dir [])) in
                Verified (fst r) (snd r)
            end
        end
    end.

(** The values yargs leaves in [argv] for the main options: [undefined]
    for an option that was not given, a boolean for [--list], the text
    after a string option. *)
Inductive argv_value := Undefined | Bool (b : bool) | Text (s : string).

(** [Boolean(v)]. *)
Definition Boolean (v : argv_value) : bool :=
  match v with
  | Undefined => false
  | Bool b => b
  | Text s => negb (is_empty s)
  end.

Record argv := Argv {
  argv_list : argv_value;
  argv_store : argv_value;
  argv_restore : argv_value;
  argv_delete : argv_value;
  argv_verify : argv_value;
  argv_watch : argv_value
}.

Inductive usage_error := NoMainOption | SeveralMainOptions.

(** The function given to [.check]: [None] is [return true]. *)
Definition check_argv (a : argv) : option usage_error :=
  let mainOptions :=
    List.filter Boolean
      [argv_list a; argv_store a; argv_restore a; argv_delete a;
       argv_verify a; argv_watch a] in
  if (length mainOptions =? 0)%nat then Some NoMainOption
  else if (1 <? length mainOptions)%nat then Some SeveralMainOptions
  else None.

Inductive action :=
| RunList
| RunStore (v : argv_value)
| RunRestore (v : argv_value)
| RunDelete (v : argv_value)
| RunVerify (v : argv_value)
| RunWatch (v : argv_value).

(** The [if (argv.list) ... else if (argv.store) ...] chain of the main
    function: the operation it calls, with its argument. *)
Definition dispatch (a : argv) : option action :=
  if Boolean (argv_list a) then Some RunList
  else if Boolean (argv_store a) then Some (RunStore (argv_store a))
  else if Boolean (argv_restore a) then Some (RunRestore (argv_restore a))
  else if Boolean (argv_delete a) then Some (RunDelete (argv_delete a))
  else if Boolean (argv_verify a) then Some (RunVerify (argv_verify a))
  else if Boolean (argv_watch a) then Some (RunWatch (argv_watch a))
  else None.

(** The operations the command line asks for, each with the value given
    to its option. *)
Definition requested (a : argv) : list action :=
  (if Boolean (argv_list a) then [RunList] else []) ++
  (if Boolean (argv_store a) then [RunStore (argv_store a)] else []) ++
  (if Boolean (argv_restore a) then [RunRestore (argv_restore a)] else []) ++
  (if Boolean (argv_delete a) then [RunDelete (argv_delete a)] else []) ++
  (if Boolean (argv_verify a) then [RunVerify (argv_verify a)] else []) ++
  (if Boolean (argv_watch a) then [RunWatch (argv_watch a)] else []).

(** The argument an operation is called with. *)
Definition action_argument (act : action) : option argv_value :=
  match act with
  | RunList => None
  | RunStore v | RunRestore v | RunDelete v | RunVerify v | RunWatch v => Some v
  end.

(** ** 13. Reading the output of [gh auth status] *)

Definition quote : ascii := "'"%char.

Definition not_quote (c : ascii) : bool := negb (Ascii.eqb c quote).

(** The line terminators among single bytes, LF and CR: what [.] does not
    match. *)
Definition is_line_terminator (c : ascii) : bool :=
  let n := nat_of_ascii c in Nat.eqb n 10 || Nat.eqb n 13.

Definition line_char (c : ascii) : bool := negb (is_line_terminator c).

(** The longest prefix of [s] whose characters satisfy [p], and the rest:
    what a greedy [[...]*] takes. *)
Fixpoint span (p : ascii → bool) (s : string) : string * string :=
  match s with
  | String c s' =>
      if p c then let r := span p s' in (String c (fst r), snd r)
      else (EmptyString, s)
  | EmptyString => (EmptyString, EmptyString)
  end.

(** [s.match(re)] without the [g] flag, from what [re] does when tried at
    one position: the leftmost position at which it matches. *)
Fixpoint regex_search {A} (at_start : string → option A) (s : string)
  : option A :=
  match at_start s with
  | Some r => Some r
  | None =>
      match s with
      | String _ s' => regex_search at_start s'
      | EmptyString => None
      end
  end.

(** A literal, then the rest of the expression. *)
Definition after_literal {A} (lit : string) (k : string → option A)
    (s : string) : option A :=
  if String.prefix lit s then k (string_drop (String.length lit) s) else None.

(** [/'([^']+)'/] tried at the start of [s]: the captured text and what
    follows the match.  The class excludes the quote, so the greedy [+]
    ends at the first quote and giving characters back cannot help. *)
Definition quoted_at (s : string) : option (string * string) :=
  match s with
  | String c s' =>
      if Ascii.eqb c quote then
        match span not_quote s' with
        | (String b body, String _ rest) => Some (String b body, rest)
        | _ => None
        end
      else None
  | EmptyString => None
  end.

(** [/Token scopes:\s*'([^']+)'/], capture 1.  No white space is a quote,
    so [\s*] takes all the white space there is. *)
Definition first_scope_at : string → option string :=
  after_literal "Token scopes:" (λ r, fst <$> quoted_at (trimStart r)).

(** How [checkGitHubAuth] ends: [true] (with or without the warning about
    the gist scope), [false], or [process.exit(1)] when [gh] is missing. *)
Inductive auth_check := AuthOk (warned : bool) | AuthMissing | GhNotInstalled.

(** [authResult]: the result of [gh auth status], or the message of the
    error the call threw ([None]: an error without a message). *)
Definition checkGitHubAuth (authResult : cmd_result + option string)
  : auth_check :=
  match authResult with
  | inl r =>
      if (code r =? 0)%Z then
        let scopesMatch := regex_search first_scope_at (stdout r) in
        AuthOk match scopesMatch with
               | Some scope => negb (includes scope "gist")
               | None => false
               end
      else AuthMissing
  | inr (Some message) =>
      if includes message "not found" || includes message "command not found"
      then GhNotInstalled else AuthMissing
  | inr None => AuthMissing
  end.

(** [\s*(.+)] tried at the start of [s], capture 1: [\s*] takes white
    space greedily and gives back one character at a time while [.+] finds
    nothing to match; [.+] then runs to the end of the line. *)
Fixpoint spaces_then_line (s : string) : option string :=
  match s with
  | String c s' =>
      if is_space c then
        match spaces_then_line s' with
        | Some r => Some r
        | None =>
            if is_line_terminator c then None
            else Some (fst (span line_char s))
        end
      else if is_line_terminator c then None
      else Some (fst (span line_char s))
  | EmptyString => None
  end.

(** [/Token scopes:\s*(.+)/], capture 1. *)
Definition scopes_line_at : string → option string :=
  after_literal "Token scopes:" spaces_then_line.

(** [s.match(/'([^']+)'/g)]: every match, quotes included, each search
    starting where the match before it ended ([[]] is [null]). *)
Fixpoint quoted_all (fuel : nat) (s : string) : list string :=
  match fuel with
  | O => []
  | S fuel' =>
      match quoted_at s with
      | Some (body, rest) =>
          (String quote body +:+ String quote "") :: quoted_all fuel' rest
      | None =>
          match s with
          | String _ s' => quoted_all fuel' s'
          | EmptyString => []
          end
      end
  end.

Definition match_all_quoted (s : string) : list string :=
  quoted_all (S (String.length s)) s.

(** [s.replace(/'/g, '')]. *)
Fixpoint remove_quotes (s : string) : string :=
  match s with
  | String c s' =>
      if Ascii.eqb c quote then remove_quotes s' else String c (remove_quotes s')
  | EmptyString => EmptyString
  end.

(** The fields [scopes] and [hasGistScope] of the record
    [getDetailedAuthStatus] builds from the output of [gh auth status]. *)
Definition detailed_scopes (output : string) : list string * bool :=
  match regex_search scopes_line_at output with
  | Some scopesLine =>
      let scopes :=
        match match_all_quoted scopesLine with
        | [] => map trim (split_on "," scopesLine)
        | quotedScopes => map remove_quotes quotedScopes
        end in
      (scopes, existsb (String.eqb "gist") scopes)
  | None => ([], false)
  end.

(** A scope as [gh] names it: printable ASCII without space or quote. *)
Definition scope_char (c : ascii) : bool :=
  let n := nat_of_ascii c in
  Nat.ltb 32 n && Nat.ltb n 127 && not_quote c.

Definition is_scope (s : string) : bool :=
  negb (is_empty s) && forallb scope_char (list_ascii_of_string s).

(** The line [gh auth status] prints for a token with the given scopes,
    behind [pre] (the indentation of the line and everything before it)
    and in front of [rest] (empty, or the end of the line and what
    follows). *)
Definition in_quotes (s : string) : string :=
  String quote s +:+ String quote "".

Definition scopes_text (scopes : list string) : string :=
  String.concat ", " (map in_quotes scopes).

Definition auth_status_output (pre : string) (scopes : list string)
    (rest : string) : string :=
  pre +:+ ("Token scopes:" +:+ (" " +:+ (scopes_text scopes +:+ rest))).

Definition ends_line (rest : string) : bool :=
  match rest with
  | EmptyString => true
  | String c _ => is_line_terminator c
  end.

(** ** 14. The gist of the profiles: [findOrCreateGist] *)

(** [/https:\/\/gist\.github\.com\/\S+/] tried at the start of [s]: the
    whole match, the literal and the white-space-free text behind it. *)
Definition gist_url_at : string → option string :=
  after_literal "https://gist.github.com/"
    (λ r, match fst (span (λ c, negb (is_space c)) r) with
          | EmptyString => None
          | run => Some ("https://gist.github.com/" +:+ run)
          end).

(** [s.split('/').pop()]. *)
Definition last_segment (s : string) : string :=
  List.last (split_on "/" s) EmptyString.

(** [error.message?.includes(needle)]. *)
Definition message_includes (message : option string) (needle : string) : bool :=
  match message with
  | Some m => includes m needle
  | None => false
  end.

(** How [findOrCreateGist] ends: with the id the [gh api /gists] query
    printed, with the id taken from the output of [gh gist create], or with
    [process.exit(1)]. *)
Inductive gist_outcome := Existing (id : string) | Created (id : string) | GistExit1.

(** [apiResult] and [createResult]: the result of the query and of
    [gh gist create] (which is run only where the result below depends on
    it), or the message of the error the call threw. *)
Definition findOrCreateGist (apiResult createResult : cmd_result + option string)
  : gist_outcome :=
  let create :=
    match createResult with
    | inl r =>
        if negb (code r =? 0)%Z then
          if includes (stdout r) "gist.github.com" then
            match regex_search gist_url_at (stdout r) with
            | Some gistUrl => Created (last_segment gistUrl)
            | None => GistExit1
            end
          else GistExit1
        else Created (last_segment (trim (stdout r)))
    | inr _ => GistExit1
    end in
  match apiResult with
  | inl r =>
      let gistId := trim (stdout r) in
      if negb (is_empty gistId) then Existing gistId else create
  | inr message =>
      if message_includes message "404" || message_includes message "not found"
      then create
      else if message_includes message "rate limit" then GistExit1
      else if message_includes message "network" ||
              message_includes message "timeout" then GistExit1
      else create
  end.

(** A part of the address of a gist, the owner or the id: not empty, no
    white space and no slash. *)
Definition segment_char (c : ascii) : bool :=
  negb (is_space c) && negb (Ascii.eqb c "/").

Definition is_segment (s : string) : bool :=
  negb (is_empty s) && forallb segment_char (list_ascii_of_string s).

(** The address [gh gist create] prints. *)
Definition gist_url (user id : string) : string :=
  "https://gist.github.com/" +:+ (user +:+ String "/" id).

(** ** 15. The format of the keychain entry: [setKeychainCredentials] *)

(** What [JSON.parse] returns, and [undefined] for a member that is not
    there.  [number] is the type of the numbers; an object lists each of
    its keys once. *)
#[warnings="-register-all"]
Inductive value (number : Type) :=
| JUndefined
| JNull
| JBool (b : bool)
| JNumber (n : number)
| JString (s : string)
| JArray (items : list (value number))
| JObject (members : list (string * value number)).

Arguments JUndefined {number}.
Arguments JNull {number}.
Arguments JBool {number} b.
Arguments JNumber {number} n.
Arguments JString {number} s.
Arguments JArray {number} items.
Arguments JObject {number} members.

(** Which numbers are truthy (all but zero and NaN). *)
Class Truthy (number : Type) := number_truthy : number → bool.

Definition truthy `{Truthy number} (v : value number) : bool :=
  match v with
  | JUndefined | JNull => false
  | JBool b => b
  | JNumber n => number_truthy n
  | JString s => negb (is_empty s)
  | JArray _ | JObject _ => true
  end.

Fixpoint member {number} (key : string) (members : list (string * value number))
  : value number :=
  match members with
  | [] => JUndefined
  | (k, v) :: rest => if String.eqb k key then v else member key rest
  end.

(** [v.key] on a value that is neither [null] nor [undefined], for the
    keys read here: a string, a number, a boolean and an array have none of
    them. *)
Definition prop {number} (v : value number) (key : string) : value number :=
  match v with
  | JObject members => member key members
  | _ => JUndefined
  end.

(** [a || b]. *)
Definition js_or `{Truthy number} (a b : value number) : value number :=
  if truthy a then a else b.

(** What [setKeychainCredentials] hands to [JSON.stringify], its
    [keychainData]; [None] when [credentials] is [null] or [undefined],
    reading its member throws and the function returns [false]. *)
Definition keychainData `{Truthy number} (credentials : value number)
  : option (value number) :=
  match credentials with
  | JUndefined | JNull => None
  | _ =>
      if truthy (prop credentials "claudeAiOauth") then Some credentials
      else if truthy (prop credentials "access_token") then
        Some (JObject
          [("claudeAiOauth",
            JObject
              [("accessToken", prop credentials "access_token");
               ("refreshToken", prop credentials "refresh_token");
               ("expiresAt", js_or (prop credentials "expiry_date")
                                   (prop credentials "expiresAt"));
               ("scopes", js_or (prop credentials "scopes")
                                (JArray [JString "user:inference"]));
               ("subscriptionType", js_or (prop credentials "subscriptionType")
                                          (JString "max"))])])
      else if truthy (prop credentials "accessToken") then
        Some (JObject [("claudeAiOauth", credentials)])
      else Some credentials
  end.

(** The credentials are in one of the three formats
    [setKeychainCredentials] knows. *)
Definition recognised `{Truthy number} (credentials : value number) : bool :=
  truthy (prop credentials "claudeAiOauth") ||
  truthy (prop credentials "access_token") ||
  truthy (prop credentials "accessToken").

#[global] Instance Z_truthy : Truthy Z := λ n, negb (n =? 0)%Z.

(** ** 16. A gist as restore reads it *)

(** A gist with the read-me and one stored profile, [work]: the listing
    and the [files] object of the API response. *)
Definition listed_view : gist_view :=
  GistView (Some "abc123") (gist_listing [] ["work"])
    {[ "claude-profiles-readme.md" := GistFile false "# Claude Profiles Backup" "" 24;
       "work.zip.base64" := GistFile false "UEsDBA==" "" 8 ]}.

(** ** 17. Watch mode: a burst of changes *)

(** The events of a burst: change notifications and time passing, with no
    timer firing in between. *)
Definition burst_event (e : event) : bool :=
  match e with
  | Change | Tick _ => true
  | _ => false
  end.

(** The state during a burst that started at [boot]: nothing saved or
    started yet, and, once a change has been seen at time [c], the debounce
    timer for [c] armed and nothing else. *)
Definition burst_state (t0 : Z) (seen : option Z) (s : watch) : Prop :=
  lastSaveTime s = 0%Z ∧ pendingSave s = false ∧ tasks s = ∅ ∧
  journal s = [] ∧ (t0 ≤ clock s)%Z ∧
  match seen with
  | None => timers s = ∅ ∧ pendingSaveTimeout s = None ∧ changeDetected s = false
  | Some c =>
      changeDetected s = true ∧ (c ≤ clock s)%Z ∧
      pendingSaveTimeout s = Some (pred (fresh s)) ∧
      timers s = {[ pred (fresh s) := Timer (c + debounceDelay) DebounceCb ]}
  end.

(* ===================================================================== *)
(** * Part II: properties *)
(* ===================================================================== *)

(** ** 1. Watch mode *)

Lemma run_app (s : watch) (es1 es2 : list event) :
  run s (es1 ++ es2) = run s es1 ≫= λ s', run s' es2.
Proof.
  revert s. induction es1 as [|e es1 IH]; intros s; simpl; [done|].
  destruct (step s e); simpl; [apply IH | done].
Qed.

Example first_save_in_flight :
  saves_in_flight <$> run (boot t_boot) first_save_starts = Some 1.
Proof. vm_compute. reflexivity. Qed.

(** C1 (evaluated on the code): a change that arrives while a save is in
    flight arms a fresh debounce timer; when it fires the baseline is still
    the old one, so the immediate branch starts a second [saveProfileSilent]
    before the first has settled.  Two saves are in flight, and the journal
    shows two starts with no end in between. *)
Theorem C1_second_save_starts_during_first :
  let s := run (boot t_boot)
             (first_save_starts ++ [Tick 500; Change; Tick 2000; Fire 2]) in
  saves_in_flight <$> s = Some 2 ∧
  journal <$> s = Some [SaveStarted (t_boot + 2000); SaveStarted (t_boot + 4500)].
Proof. vm_compute. split; reflexivity. Qed.

(** Whether a save starts depends on the change flag and the baseline
    alone: the callback never looks at the saves already in flight. *)
Lemma debounce_callback_ignores_saves_in_flight (s : watch) :
  changeDetected s = true →
  (minSaveInterval ≤ clock s - lastSaveTime s)%Z →
  debounce_callback s =
  start_save (Immediate (clock s)) (set_changeDetected false s).
Proof.
  intros Hc Hle. unfold debounce_callback. rewrite Hc. cbn [negb].
  apply Z.leb_le in Hle. cbn [clock lastSaveTime set_changeDetected].
  by rewrite Hle.
Qed.

(** C2 (evaluated on the code): the immediate branch stores [now], read
    before the save began, as the baseline.  A save that starts at
    [t_boot + 2000] and completes at [t_boot + 10000] leaves
    [lastSaveTime = t_boot + 2000], and the next save starts at
    [t_boot + 32500], earlier than completion plus [minSaveInterval]. *)
Theorem C2_baseline_is_start_of_immediate_save :
  let s1 := run (boot t_boot)
              (first_save_starts ++ [Tick 8000; SaveSettles 1 true; HashSettles 1]) in
  let s2 := s1 ≫= λ s, run s [Tick 20500; Change; Tick 2000; Fire 2] in
  clock <$> s1 = Some (t_boot + 10000)%Z ∧
  lastSaveTime <$> s1 = Some (t_boot + 2000)%Z ∧
  journal <$> s2 = Some [SaveStarted (t_boot + 2000);
                         SaveEnded (t_boot + 10000) true;
                         SaveStarted (t_boot + 32500)] ∧
  (t_boot + 32500 < (t_boot + 10000) + minSaveInterval)%Z.
Proof. vm_compute. repeat split; reflexivity. Qed.

(** The deferred branch, by contrast, reads [Date.now()] after the save. *)
Lemma deferred_success_records_completion (s : watch) (k : nat) :
  lastSaveTime (after_save k Deferred true s) = clock s.
Proof. reflexivity. Qed.

Lemma immediate_success_records_start (s : watch) (k : nat) (now : Z) :
  lastSaveTime (after_save k (Immediate now) true s) = now.
Proof. reflexivity. Qed.

(** A change during the throttle wait clears the deferred timer through the
    shared handle; the debounce callback then finds [pendingSave] set and
    schedules nothing: no timer and no save remain for the unsaved change. *)
Example change_during_wait_drops_deferred_save :
  let s := run (boot t_boot)
             (first_save_starts ++
              [Tick 1000; SaveSettles 1 true; HashSettles 1;
               Change; Tick 2000; Fire 2; Tick 1000; Change; Tick 2000; Fire 4]) in
  (λ s, (pendingSave s, changeDetected s, size (timers s), size (tasks s))) <$> s
  = Some (true, false, 0, 0).
Proof. vm_compute. reflexivity. Qed.

(** C3 (as stated, refuted): on the deferred path the [catch] block runs
    [pendingSave = false], so a failed save does clear the flag. *)
Lemma C3_deferred_failure_clears_flag : ¬ failed_save_keeps_flag_and_baseline.
Proof.
  intros H.
  pose (es := first_save_starts ++
              [Tick 1000; SaveSettles 1 true; HashSettles 1;
               Change; Tick 2000; Fire 2; Tick 27000; Fire 3]).
  destruct (run (boot t_boot) es) as [s|] eqn:Hs; [|vm_compute in Hs; discriminate].
  destruct (step s (SaveSettles 4 false)) as [s'|] eqn:Hs'.
  - destruct (H es s s' 4 Hs Hs') as [Hp _].
    vm_compute in Hs. injection Hs as <-.
    vm_compute in Hs'. injection Hs' as <-.
    vm_compute in Hp. discriminate.
  - vm_compute in Hs. injection Hs as <-. vm_compute in Hs'. discriminate.
Qed.

(** C3 (amended): when [saveProfileSilent] throws, neither path touches
    [lastSaveTime] or [saveCount]; the immediate path leaves [pendingSave]
    as it was, the deferred path sets it to [false]. *)
Theorem C3_failed_save_effect (s s' : watch) (k : nat) (b : branch) :
  tasks s !! k = Some (Task b AwaitSave) →
  step s (SaveSettles k false) = Some s' →
  lastSaveTime s' = lastSaveTime s ∧
  saveCount s' = saveCount s ∧
  pendingSave s' = match b with
                   | Immediate _ => pendingSave s
                   | Deferred => false
                   end.
Proof.
  intros Hk Hstep. simpl in Hstep. rewrite Hk in Hstep.
  injection Hstep as <-. destruct b; done.
Qed.

Lemma C3_failed_save_effect_witness :
  let s := {| lastSaveTime := 5; pendingSave := true; changeDetected := false;
              saveCount := 1; pendingSaveTimeout := Some 3;
              timers := ∅; tasks := {[4 := Task Deferred AwaitSave]};
              fresh := 5; clock := 40000; journal := [] |} in
  ∃ s', step s (SaveSettles 4 false) = Some s' ∧
        lastSaveTime s' = 5%Z ∧ saveCount s' = 1 ∧ pendingSave s' = false.
Proof.
  intros s. eexists. split; [reflexivity|].
  apply (C3_failed_save_effect s _ 4 Deferred); reflexivity.
Defined.

(** ** 2. Strings and paths *)

Example trim_probe : trim (" " +:+ "QUJD" +:+ String "010" "") = "QUJD".
Proof. reflexivity. Qed.

Example expandHome_probe :
  map (λ b, expandHome (source b)) BACKUP_PATHS =
  [[".claude"]; [".claude.json"]; [".claude.json.backup"]] ∧
  expandHome "~/.claude/.credentials.json" = [".claude"; ".credentials.json"].
Proof. split; reflexivity. Qed.

Example profile_name_probe :
  PROFILE_NAME_REGEX_test "work-2" = true ∧
  PROFILE_NAME_REGEX_test "Work_1" = false ∧
  PROFILE_NAME_REGEX_test "" = false.
Proof. repeat split; reflexivity. Qed.

(** ** 3. The file system *)

Lemma node_nested_ind (P : node → Prop) :
  (∀ d, P (File d)) →
  (∀ es, Forall (λ e, P (snd e)) es → P (Dir es)) →
  ∀ n, P n.
Proof.
  intros HF HD. fix IH 1. intros [d|es]; [apply HF|].
  apply HD. induction es as [|e es IHes]; constructor; [apply IH | apply IHes].
Qed.

Lemma lookup_set_entry_eq x c es : lookup_entry x (set_entry x c es) = Some c.
Proof.
  induction es as [|[y c'] es IH]; simpl.
  - by rewrite String.eqb_refl.
  - destruct (String.eqb x y) eqn:E; simpl; rewrite E; [done | apply IH].
Qed.

Lemma lookup_set_entry_ne x y c es :
  x ≠ y → lookup_entry y (set_entry x c es) = lookup_entry y es.
Proof.
  intros Hne. apply String.eqb_neq in Hne. rewrite String.eqb_sym in Hne.
  induction es as [|[z c'] es IH]; simpl.
  - by rewrite Hne.
  - destruct (String.eqb x z) eqn:E; simpl.
    + apply String.eqb_eq in E as <-. by rewrite Hne.
    + by rewrite IH.
Qed.

Lemma lookup_entry_elem x c es : lookup_entry x es = Some c → (x, c) ∈ es.
Proof.
  induction es as [|[y c'] es IH]; simpl; [done|].
  destruct (String.eqb x y) eqn:E.
  - apply String.eqb_eq in E as ->. intros [= ->]. left.
  - intros Hl. right. by apply IH.
Qed.

Lemma stat_app n p q : stat n (p ++ q) = stat n p ≫= λ m, stat m q.
Proof.
  revert n. induction p as [|x p IH]; intros n; simpl; [done|].
  destruct n as [d|es]; [done|].
  destruct (lookup_entry x es) as [c|]; simpl; [apply IH | done].
Qed.

Lemma wf_entry es x c : wf (Dir es) = true → lookup_entry x es = Some c → wf c = true.
Proof.
  simpl. intros [_ Hall]%andb_prop Hl.
  apply lookup_entry_elem, list_elem_of_In in Hl.
  rewrite forallb_forall in Hall. apply (Hall (x, c) Hl).
Qed.

Lemma wf_stat n p m : wf n = true → stat n p = Some m → wf m = true.
Proof.
  revert n. induction p as [|x p IH]; intros n Hwf; simpl.
  - by intros [= <-].
  - destruct n as [d|es]; [done|].
    destruct (lookup_entry x es) as [c|] eqn:Hl; simpl; [|done].
    apply IH. by eapply wf_entry.
Qed.

(** A regular file survives a write at any other path. *)
Lemma stat_write_other n p q d d' :
  p ≠ q → stat n p = Some (File d) → stat (write_file q d' n) p = Some (File d).
Proof.
  unfold write_file. revert n p.
  induction q as [|x q IH]; intros n p Hne Hst; simpl.
  - destruct n as [d0|es]; [|done].
    destruct p as [|y p]; [done | simpl in Hst; done].
  - destruct n as [d0|es]; [done|].
    destruct p as [|y p]; [simpl in Hst; congruence|].
    simpl in *. destruct (decide (x = y)) as [->|Hxy].
    + rewrite lookup_set_entry_eq. simpl.
      destruct (lookup_entry y es) as [c|] eqn:Hl; simpl in Hst; [|done].
      apply IH; [congruence | done].
    + by rewrite lookup_set_entry_ne.
Qed.

(** A write at a vacant path puts the file there. *)
Lemma stat_write_vacant o p d :
  vacant o p = true → stat (graft p (put_file d) o) p = Some (File d).
Proof.
  revert o. induction p as [|x p IH]; intros o Hv; simpl in *.
  - destruct o as [[d0|es]|]; done.
  - destruct o as [[d0|es]|]; [done| |].
    + simpl. rewrite lookup_set_entry_eq. simpl. by apply IH.
    + simpl. rewrite String.eqb_refl. simpl. apply IH. by destruct p.
Qed.

(** A write leaves vacant every path that parts ways with it. *)
Lemma vacant_write o p q d :
  diverge p q = true → vacant o q = true →
  vacant (Some (graft p (put_file d) o)) q = true.
Proof.
  revert o q. induction p as [|x p IH]; intros o q Hd Hv; [done|].
  destruct q as [|y q]; [done|]. simpl in Hd.
  destruct o as [[d0|es]|]; simpl in *; [done| |].
  - destruct (String.eqb x y) eqn:E.
    + apply String.eqb_eq in E as ->. rewrite lookup_set_entry_eq. by apply IH.
    + apply String.eqb_neq in E. by rewrite lookup_set_entry_ne.
  - rewrite String.eqb_sym. destruct (String.eqb x y) eqn:E; [|by destruct q].
    apply IH; [done | by destruct q].
Qed.

Lemma diverge_sym p q : diverge p q = diverge q p.
Proof.
  revert q. induction p as [|x p IH]; intros [|y q]; simpl; try done.
  rewrite (String.eqb_sym y x). destruct (String.eqb x y); [apply IH | done].
Qed.

Lemma diverge_ne p q : diverge p q = true → p ≠ q.
Proof.
  revert q. induction p as [|x p IH]; intros [|y q]; simpl; try done.
  destruct (String.eqb x y) eqn:E.
  - intros Hd [= _ Hpq]. by apply (IH q).
  - apply String.eqb_neq in E. congruence.
Qed.

Lemma diverge_app_same r p q : diverge (r ++ p) (r ++ q) = diverge p q.
Proof. induction r as [|x r IH]; simpl; [done|]. by rewrite String.eqb_refl. Qed.

(** Extraction puts every entry of an archive whose names part ways
    pairwise where its name says, if each name is vacant to begin with. *)
Lemma unzip_entries_stat (a : archive) (dir : node) :
  spread (map fst a) →
  Forall (λ pd, vacant (Some dir) (fst pd) = true) a →
  Forall (λ pd, stat (unzip_entries a dir) (fst pd) = Some (File (snd pd))) a.
Proof.
  revert dir. induction a as [|[p d] a IH]; intros dir Hs Hv; [constructor|].
  simpl in Hs. destruct Hs as [Hpa Hs].
  apply Forall_cons in Hv as [Hvp Hva]. simpl in Hvp.
  assert (Hrest : Forall (λ pd, vacant (Some (write_file p d dir)) (fst pd) = true) a).
  { rewrite Forall_forall. intros [q d'] Hin. simpl.
    apply vacant_write.
    - rewrite Forall_forall in Hpa. apply Hpa.
      apply (list_elem_of_fmap_2 fst _ _ Hin).
    - rewrite Forall_forall in Hva. apply (Hva _ Hin). }
  constructor.
  - simpl. clear IH Hrest Hva Hs.
    assert (Hhere : stat (write_file p d dir) p = Some (File d))
      by (by apply stat_write_vacant).
    revert Hhere. generalize (write_file p d dir) as acc.
    induction a as [|[q d'] a IHa]; intros acc Hacc; [done|].
    apply Forall_cons in Hpa as [Hpq Hpa]. simpl.
    apply IHa; [done|].
    apply stat_write_other; [|done]. by apply diverge_ne.
  - apply (IH (write_file p d dir) Hs Hrest).
Qed.

(** Every regular file found by [stat] is listed by [files_of]. *)
Lemma files_of_stat n rel d : stat n rel = Some (File d) → (rel, d) ∈ files_of n.
Proof.
  revert n. induction rel as [|x rel IH]; intros n; simpl.
  - intros [= ->]. simpl. left.
  - destruct n as [d0|es]; [done|].
    destruct (lookup_entry x es) as [c|] eqn:Hl; simpl; [|done].
    intros Hst. apply lookup_entry_elem in Hl. simpl files_of.
    apply list_elem_of_In, in_flat_map. exists (x, c). split.
    + by apply list_elem_of_In.
    + apply list_elem_of_In.
      apply (list_elem_of_fmap_2 (λ pd, (x :: fst pd, snd pd)) _ (rel, d)).
      by apply IH.
Qed.

Lemma spread_app l1 l2 :
  spread l1 → spread l2 →
  (∀ p q, p ∈ l1 → q ∈ l2 → diverge p q = true) →
  spread (l1 ++ l2).
Proof.
  induction l1 as [|p l1 IH]; intros H1 H2 Hx; [done|].
  destruct H1 as [Hp H1]. simpl. split.
  - apply Forall_app. split; [done|].
    rewrite Forall_forall. intros q Hq. apply Hx; [left | done].
  - apply IH; [done..|]. intros p' q Hp' Hq. apply Hx; [by right | done].
Qed.

Lemma spread_prefix r l : spread l → spread (map (app r) l).
Proof.
  induction l as [|p l IH]; [done|]. intros [Hp Hl]. simpl. split; [|by apply IH].
  rewrite Forall_forall. intros q' [q [-> Hq]]%list_elem_of_fmap.
  rewrite diverge_app_same. rewrite Forall_forall in Hp. by apply Hp.
Qed.

Lemma files_of_Dir_cons x c es :
  map fst (files_of (Dir ((x, c) :: es))) =
  map (app [x]) (map fst (files_of c)) ++ map fst (files_of (Dir es)).
Proof.
  simpl. rewrite map_app. f_equal. rewrite !map_map. done.
Qed.

Lemma files_of_Dir_head es p :
  p ∈ map fst (files_of (Dir es)) → ∃ x q, p = x :: q ∧ x ∈ map fst es.
Proof.
  induction es as [|[y c] es IH]; [by intros ?%elem_of_nil|].
  rewrite files_of_Dir_cons. intros [Hin|Hin]%elem_of_app.
  - apply list_elem_of_fmap in Hin as [q [-> _]]. exists y, q. split; [done | left].
  - destruct (IH Hin) as (x & q & -> & Hx). exists x, q. split; [done | by right].
Qed.

(** In a well-formed tree the paths of the files part ways pairwise. *)
Lemma files_of_spread n : wf n = true → spread (map fst (files_of n)).
Proof.
  induction n as [d|es IH] using node_nested_ind; [simpl; auto|].
  induction es as [|[x c] es IHes]; [done|].
  intros Hwf. simpl in Hwf.
  apply andb_prop in Hwf as [Hnd [Hc Hes]%andb_prop].
  apply bool_decide_eq_true in Hnd. apply NoDup_cons in Hnd as [Hx Hnd].
  apply Forall_cons in IH as [IHc IHrest].
  rewrite files_of_Dir_cons. apply spread_app.
  - apply spread_prefix. by apply IHc.
  - apply IHes; [done|]. simpl. rewrite Hes, andb_true_r.
    by apply bool_decide_eq_true.
  - intros p q [p' [-> _]]%list_elem_of_fmap Hq.
    apply files_of_Dir_head in Hq as (y & q' & -> & Hy). simpl.
    destruct (String.eqb x y) eqn:E; [|done].
    apply String.eqb_eq in E as ->. done.
Qed.

(** ** 4. Download *)

(** C4: when the read response says [truncated], what both [restoreProfile]
    and [verifyProfile] decode is the (trimmed) answer of [curl] on
    [raw_url], whatever the inline [content] holds; otherwise it is the
    (trimmed) inline [content]. *)
Theorem C4_truncated_download_uses_raw_url `{Codec, Http}
    (view : gist_view) (profileName : string) (fileData : gist_file) :
  includes (listing view) (profileName +:+ ".zip.base64") = true →
  files view !! (profileName +:+ ".zip.base64") = Some fileData →
  let chosen := if truncated fileData then curl (raw_url fileData)
                else content fileData in
  restore_download view profileName = decoded (trim chosen) ∧
  verify_download view profileName = decoded (trim chosen).
Proof.
  intros Hinc Hfile chosen. subst chosen.
  unfold restore_download, verify_download, restore_base64Data,
    verify_base64Data, decoded.
  rewrite Hinc, Hfile. simpl. destruct (truncated fileData); done.
Qed.

Lemma C4_truncated_download_witness :
  let view := GistView (Some "abc123") ("README.md" +:+ String "010" "work.zip.base64")
                {[ "work.zip.base64" := GistFile true "UEsDB" "https://gist/raw/work" 2000000 ]} in
  @restore_download plain_codec echo_http view "work" =
    @decoded plain_codec (@trim (@curl echo_http "https://gist/raw/work")) ∧
  @verify_download plain_codec echo_http view "work" =
    @decoded plain_codec (@trim (@curl echo_http "https://gist/raw/work")).
Proof.
  intros view.
  apply (@C4_truncated_download_uses_raw_url plain_codec echo_http view "work"
           (GistFile true "UEsDB" "https://gist/raw/work" 2000000));
    vm_compute; reflexivity.
Defined.

Lemma base64Data_ignores_inline_when_truncated `{Http} (c c' u : string) (n n' : Z) :
  restore_base64Data (GistFile true c u n) = restore_base64Data (GistFile true c' u n') ∧
  verify_base64Data (GistFile true c u n) = verify_base64Data (GistFile true c' u n').
Proof. done. Qed.

(** ** 5. Archive build and extraction *)

Lemma add_item_entries home items a b :
  fst (fold_left (add_item home) items (a, b)) =
  a ++ flat_map (item_entries home) items.
Proof.
  revert a b. induction items as [|item items IH]; intros a b; simpl.
  - by rewrite app_nil_r.
  - unfold add_item at 2, item_entries at 1.
    destruct (stat home (expandHome (source item))) as [[d|es]|]; simpl;
      rewrite IH; by rewrite <- ?app_assoc.
Qed.


Lemma collect_entries `{Json} platform home keychain :
  fst (collect platform home keychain) =
  flat_map (item_entries home) BACKUP_PATHS ++ keychain_entries platform keychain.
Proof.
  unfold collect, add_keychain, keychain_entries.
  pose proof (add_item_entries home BACKUP_PATHS [] false) as Hf.
  destruct (fold_left (add_item home) BACKUP_PATHS ([], false)) as [a b] eqn:E.
  assert (Ha : a = flat_map (item_entries home) BACKUP_PATHS)
    by (change a with (fst (a, b)); rewrite <- E; exact Hf).
  subst a.
  destruct (isMacOS platform), keychain; cbn [fst]; by rewrite ?app_nil_r.
Qed.


Lemma item_entries_elem home item p d :
  (p, d) ∈ item_entries home item →
  ∃ n rel, stat home (expandHome (source item)) = Some n ∧
           p = components (dest item) ++ rel ∧ (rel, d) ∈ files_of n.
Proof.
  unfold item_entries.
  destruct (stat home (expandHome (source item))) as [[d0|es]|] eqn:Hst.
  - unfold archive_file. intros [= -> ->]%list_elem_of_singleton.
    exists (File d0), []. rewrite app_nil_r. repeat split. simpl. left.
  - unfold archive_directory. intros [[rel d'] [[= -> ->] Hin]]%list_elem_of_fmap.
    exists (Dir es), rel. done.
  - by intros ?%elem_of_nil.
Qed.

Lemma item_entries_head home item p :
  p ∈ map fst (item_entries home item) → ∃ rel, p = components (dest item) ++ rel.
Proof.
  intros [[p' d] [-> Hin]]%list_elem_of_fmap.
  apply item_entries_elem in Hin as (n & rel & _ & -> & _). by exists rel.
Qed.

Lemma keychain_entries_head `{Json} platform keychain p :
  p ∈ map fst (keychain_entries platform keychain) →
  p = [".macos.credentials.json"].
Proof.
  unfold keychain_entries.
  destruct (isMacOS platform), keychain; simpl;
    try (by intros ?%elem_of_nil).
  by intros ->%list_elem_of_singleton.
Qed.

Lemma archive_directory_paths src dest :
  map fst (archive_directory src dest) = map (app dest) (map fst (files_of src)).
Proof. unfold archive_directory. by rewrite !map_map. Qed.

Lemma item_entries_spread home item :
  wf home = true → spread (map fst (item_entries home item)).
Proof.
  intros Hwf. unfold item_entries.
  destruct (stat home (expandHome (source item))) as [[d|es]|] eqn:Hst;
    [simpl; auto | | done].
  rewrite archive_directory_paths.
  apply spread_prefix, files_of_spread. by eapply wf_stat.
Qed.

Lemma keychain_entries_spread `{Json} platform keychain :
  spread (map fst (keychain_entries platform keychain)).
Proof.
  unfold keychain_entries. destruct (isMacOS platform), keychain; simpl; auto.
Qed.

Lemma item_entries_of_stat home item rel data :
  stat home (expandHome (source item) ++ rel) = Some (File data) →
  (components (dest item) ++ rel, data) ∈ item_entries home item.
Proof.
  rewrite stat_app. unfold item_entries.
  destruct (stat home (expandHome (source item))) as [[d|es]|]; simpl; [| |done].
  - destruct rel as [|x rel]; [|done]. intros [= ->].
    rewrite app_nil_r. left.
  - intros Hst. unfold archive_directory.
    apply (list_elem_of_fmap_2 (λ pd, (components (dest item) ++ fst pd, snd pd))
             _ (rel, data)).
    destruct rel as [|x rel]; [done|]. by apply (files_of_stat (Dir es)).
Qed.

Lemma vacant_None p : vacant None p = true.
Proof. by destruct p. Qed.

(** The entries of a built archive have names that part ways pairwise, and
    every one of them is vacant in a fresh directory. *)
Lemma collect_spread `{Json} platform home keychain :
  wf home = true → spread (map fst (fst (collect platform home keychain))).
Proof.
  intros Hwf. rewrite collect_entries. unfold BACKUP_PATHS. cbn [flat_map].
  rewrite app_nil_r, !map_app.
  repeat apply spread_app;
    try (by apply item_entries_spread); try apply keychain_entries_spread.
  all: intros p q Hp Hq;
    repeat match goal with
    | H : _ ∈ _ ++ _ |- _ => apply elem_of_app in H as [H|H]
    | H : _ ∈ map fst (item_entries _ _) |- _ =>
        apply item_entries_head in H as [? ->]
    | H : _ ∈ map fst (keychain_entries _ _) |- _ =>
        apply keychain_entries_head in H as ->
    end; reflexivity.
Qed.

Lemma collect_vacant `{Json} platform home keychain :
  Forall (λ pd, vacant (Some (Dir [])) (fst pd) = true)
    (fst (collect platform home keychain)).
Proof.
  rewrite collect_entries, Forall_forall. intros [p d] Hin. simpl.
  assert (Hp : ∃ x p', p = x :: p'); [|destruct Hp as (x & p' & ->); apply vacant_None].
  apply elem_of_app in Hin as [Hin|Hin].
  - apply list_elem_of_In, in_flat_map in Hin as (item & Hitem & Hin).
    apply list_elem_of_In in Hin.
    apply (list_elem_of_fmap_2 fst) in Hin. cbn [fst] in Hin.
    apply item_entries_head in Hin as [rel ->].
    unfold BACKUP_PATHS in Hitem. simpl in Hitem.
    destruct Hitem as [<-|[<-|[<-|[]]]]; eexists _, _; reflexivity.
  - apply (list_elem_of_fmap_2 fst) in Hin. cbn [fst] in Hin.
    apply keychain_entries_head in Hin as ->. by eexists _, _.
Qed.



(** ** 6. Store *)

(** C6 (evaluated on the code): with none of the backup paths on disk and
    no keychain value, [saveProfileSilent] finalizes an archive with no
    entry, uploads it and returns normally. *)
Theorem C6_silent_save_uploads_empty_profile :
  @saveProfileSilent plain_codec text_json "work" "linux" (Dir []) None
    accepting_github
  = (Completed,
     [Finalize []; GistEdit "abc123" "work.zip.base64" "UEsDBA=="]).
Proof. vm_compute. reflexivity. Qed.

Lemma stat_below_missing n x p : stat n [x] = None → stat n (x :: p) = None.
Proof.
  destruct n as [d|es]; simpl; [done|].
  by destruct (lookup_entry x es).
Qed.

(** [saveProfile] on the same inputs stops at its first gate: the
    configuration file is missing, so it never reaches the [hasFiles]
    test, and nothing is finalized or uploaded. *)
Lemma saveProfile_without_sources `{Codec, Json} profileName platform home keychain gh :
  PROFILE_NAME_REGEX_test profileName = true →
  (∀ item, item ∈ BACKUP_PATHS → stat home (expandHome (source item)) = None) →
  ∃ issues, saveProfile profileName platform home keychain gh =
            (Exit1 (VerificationFailed issues), []) ∧
            "Missing required file: Claude configuration" ∈ issues.
Proof.
  intros Hname Hnone.
  assert (H1 : stat home [".claude"] = None)
    by (apply (Hnone (BackupPath "~/.claude" ".claude")); left).
  assert (H2 : stat home [".claude.json"] = None)
    by (apply (Hnone (BackupPath "~/.claude.json" ".claude.json"));
        right; left).
  assert (H3 : stat home [".claude.json.backup"] = None)
    by (apply (Hnone (BackupPath "~/.claude.json.backup" ".claude.json.backup"));
        right; right; left).
  assert (Hc : stat home [".claude"; ".credentials.json"] = None)
    by (by apply stat_below_missing).
  unfold saveProfile. rewrite Hname. cbn [negb].
  assert (Hv : ∃ issues,
    verifyLocalFiles platform home keychain = {| valid := false; issues := issues |} ∧
    "Missing required file: Claude configuration" ∈ issues).
  { unfold verifyLocalFiles, local_checks. cbn [fold_left].
    unfold local_check. cbn [c_skipIfKeychainExists c_path c_essential].
    change (expandHome "~/.claude/.credentials.json") with [".claude"; ".credentials.json"].
    change (expandHome "~/.claude.json") with [".claude.json"].
    change (expandHome "~/.claude.json.backup") with [".claude.json.backup"].
    rewrite Hc, H2, H3. cbn [andb].
    destruct (isMacOS platform), (bool_decide (is_Some keychain));
      cbn [andb negb]; eexists; (split; [reflexivity|]); cbn;
      repeat (first [left; reflexivity | right]). }
  destruct Hv as (iss & -> & Hin). exists iss. done.
Qed.

(** ** 7. Verification gates *)

Lemma downloaded_check_ok dir v ck :
  downloaded_check dir v ck =
  if check_ok dir ck then v else flag_missing "Missing: " ck v.
Proof.
  unfold downloaded_check, check_ok.
  destruct (stat dir (components (c_path ck))) as [[d|es]|], (c_essential ck); done.
Qed.

Lemma fold_downloaded_check dir cks v :
  fold_left (downloaded_check dir) cks v =
  {| valid := valid v && forallb (check_ok dir) cks;
     issues := issues v ++
               map (λ ck, "Missing: " +:+ c_description ck)
                   (List.filter (λ ck, negb (check_ok dir ck)) cks) |}.
Proof.
  revert v. induction cks as [|ck cks IH]; intros [b iss]; simpl.
  - by rewrite andb_true_r, app_nil_r.
  - rewrite IH, downloaded_check_ok.
    destruct (check_ok dir ck); simpl; [done|].
    by rewrite andb_false_r, <- app_assoc.
Qed.

(** The gate of a restore, on the extracted tree: it rejects, naming the
    entry, as soon as an entry that is essential on this platform is not
    there as a regular file ... *)
Lemma gate_rejects_missing_essential platform dir ck :
  ck ∈ downloaded_checks platform →
  c_essential ck = true →
  (∀ d, stat dir (components (c_path ck)) ≠ Some (File d)) →
  valid (verify_extracted platform dir) = false ∧
  ("Missing: " +:+ c_description ck) ∈ issues (verify_extracted platform dir).
Proof.
  intros Hin Hess Hmiss. unfold verify_extracted. rewrite fold_downloaded_check.
  assert (Hko : check_ok dir ck = false).
  { unfold check_ok. rewrite Hess.
    destruct (stat dir (components (c_path ck))) as [[d|es]|]; try done.
    by destruct (Hmiss d). }
  cbn [valid issues andb app]. split.
  - apply not_true_is_false. intros Hall. rewrite forallb_forall in Hall.
    apply list_elem_of_In in Hin. rewrite (Hall ck Hin) in Hko. done.
  - apply (list_elem_of_fmap_2 (λ ck, "Missing: " +:+ c_description ck)).
    apply list_elem_of_In, filter_In. split; [by apply list_elem_of_In|].
    by rewrite Hko.
Qed.

(** ... and accepts, with no issue, when every essential entry is a
    regular file, whatever else is absent. *)
Lemma gate_accepts_essentials platform dir :
  (∀ ck, ck ∈ downloaded_checks platform → c_essential ck = true →
         ∃ d, stat dir (components (c_path ck)) = Some (File d)) →
  verify_extracted platform dir = {| valid := true; issues := [] |}.
Proof.
  intros Hall. unfold verify_extracted. rewrite fold_downloaded_check.
  assert (Hok : ∀ ck, In ck (downloaded_checks platform) → check_ok dir ck = true).
  { intros ck Hin. unfold check_ok. destruct (c_essential ck) eqn:Hess; [|done].
    apply list_elem_of_In in Hin. destruct (Hall ck Hin Hess) as [d ->]. done. }
  cbn [valid issues andb app]. f_equal.
  - by apply forallb_forall.
  - replace (List.filter (λ ck, negb (check_ok dir ck)) (downloaded_checks platform))
      with (@nil check); [done|].
    symmetry. clear Hall.
    induction (downloaded_checks platform) as [|ck cks IH]; [done|].
    simpl. rewrite (Hok ck) by (by left). simpl. apply IH.
    intros ck' Hin. apply Hok. by right.
Qed.

(** Which credential entry is essential follows the platform. *)
Lemma downloaded_essentials platform :
  map (λ ck, (c_path ck, c_essential ck)) (downloaded_checks platform) =
  [ (".claude/.credentials.json", negb (isMacOS platform));
    (".macos.credentials.json", isMacOS platform);
    (".claude.json", true) ].
Proof. reflexivity. Qed.

(** C7 (evaluated on the code): the [checks] table of the standalone
    [verifyProfile] has no platform test: the credentials file is essential
    everywhere and the keychain entry is never looked at.  On macOS the
    two gates disagree in both directions. *)
Theorem C7_standalone_verify_is_not_platform_conditional :
  verify_extracted "darwin" mac_profile = {| valid := true; issues := [] |} ∧
  fst (verifyProfile_checks mac_profile) = false ∧
  verify_extracted "darwin" file_profile =
    {| valid := false; issues := ["Missing: Claude credentials (macOS)"] |} ∧
  fst (verifyProfile_checks file_profile) = true.
Proof. vm_compute. repeat split; reflexivity. Qed.

(** C8: a gate that fails stops the operation before its destructive step
    and hands out the issues.  A store whose [verifyLocalFiles] is not
    valid ends with these issues and has finalized and uploaded nothing; a
    restore whose [verifyDownloadedProfile] is not valid (which includes an
    archive [unzip] cannot read) ends with these issues and leaves the
    home tree and the keychain as they were. *)
Theorem C8_failed_gate_blocks_the_operation `{Codec, Json, Http}
    (profileName platform : string) (home : node) (keychain : option json) :
  PROFILE_NAME_REGEX_test profileName = true →
  (∀ gh,
     valid (verifyLocalFiles platform home keychain) = false →
     saveProfile profileName platform home keychain gh =
       (Exit1 (VerificationFailed (issues (verifyLocalFiles platform home keychain))),
        [])) ∧
  (∀ view id zipBuffer,
     view_id view = Some id →
     restore_download view profileName = inr zipBuffer →
     valid (verifyDownloadedProfile platform zipBuffer) = false →
     restoreProfile profileName platform home keychain view =
       (Exit1 (VerificationFailed
                 (issues (verifyDownloadedProfile platform zipBuffer))),
        home, keychain)) ∧
  (∀ zipBuffer,
     zip_read zipBuffer = None →
     verifyDownloadedProfile platform zipBuffer =
       {| valid := false; issues := ["Failed to extract profile archive"] |}).
Proof.
  intros Hname. repeat split.
  - intros gh Hbad. unfold saveProfile. by rewrite Hname, Hbad.
  - intros view id zipBuffer Hid Hdl Hbad. unfold restoreProfile.
    by rewrite Hname, Hid, Hdl, Hbad.
  - intros zipBuffer Hnone. unfold verifyDownloadedProfile. by rewrite Hnone.
Qed.

(** Whenever a restore does not complete, for whatever reason, the home
    tree and the keychain are the ones it started from. *)
Lemma restore_failure_leaves_local_state `{Codec, Json, Http}
    profileName platform home keychain view o home' keychain' :
  restoreProfile profileName platform home keychain view = (o, home', keychain') →
  o ≠ Completed → home' = home ∧ keychain' = keychain.
Proof.
  unfold restoreProfile.
  destruct (negb (PROFILE_NAME_REGEX_test profileName)); [by intros [= <- <- <-]|].
  destruct (view_id view); [|by intros [= <- <- <-]].
  destruct (restore_download view profileName) as [f|z]; [by intros [= <- <- <-]|].
  destruct (negb (valid (verifyDownloadedProfile platform z)));
    [by intros [= <- <- <-]|].
  by intros [= <- <- <-].
Qed.

(** Whenever a store ends before its upload, no [gh gist edit] was run. *)
Lemma store_gate_failure_uploads_nothing `{Codec, Json}
    profileName platform home keychain gh f effects :
  saveProfile profileName platform home keychain gh = (Exit1 f, effects) →
  (f = InvalidProfileName ∨ (∃ iss, f = VerificationFailed iss) ∨ f = NoContent) →
  effects = [].
Proof.
  unfold saveProfile.
  destruct (negb (PROFILE_NAME_REGEX_test profileName)); [by intros [= <- <-]|].
  destruct (negb (valid (verifyLocalFiles platform home keychain)));
    [by intros [= <- <-]|].
  destruct (collect platform home keychain) as [a hasFiles].
  destruct (negb hasFiles); [by intros [= <- <-]|].
  destruct (gistId gh) as [id|].
  - destruct (upload_failed _); intros [= <- <-].
    intros [Hf|[[iss Hf]|Hf]]; discriminate.
  - intros [= <- <-]. intros [Hf|[[iss Hf]|Hf]]; discriminate.
Qed.

Lemma C8_failed_gate_witness :
  let view := GistView (Some "abc123") "work.zip.base64"
                {[ "work.zip.base64" := GistFile false "UEsDBA==" "" 8 ]} in
  @saveProfile plain_codec text_json "work" "linux" (Dir []) None accepting_github =
    (Exit1 (VerificationFailed
              ["Missing required file: Claude credentials (file)";
               "Missing required file: Claude configuration"]), []) ∧
  @restoreProfile plain_codec text_json echo_http "work" "linux" (Dir []) None view =
    (Exit1 (VerificationFailed
              ["Missing: Claude credentials (file)";
               "Missing: Claude configuration"]), Dir [], None) ∧
  @verifyDownloadedProfile plain_codec "linux" None =
    {| valid := false; issues := ["Failed to extract profile archive"] |}.
Proof.
  intros view.
  destruct (@C8_failed_gate_blocks_the_operation plain_codec text_json echo_http
              "work" "linux" (Dir []) None eq_refl) as (Hstore & Hrestore & Hunzip).
  split; [|split].
  - exact (Hstore accepting_github eq_refl).
  - exact (Hrestore view "abc123" (Some []) eq_refl eq_refl eq_refl).
  - exact (Hunzip None eq_refl).
Defined.

(** ** 8. Fingerprint *)

#[local] Instance str_le_total : Total str_le.
Proof. intros a b. apply String.leb_total. Qed.

#[local] Instance str_le_antisymm : AntiSymm (=) str_le.
Proof. intros a b. apply String.leb_antisym. Qed.

#[local] Instance str_le_trans : Transitive str_le.
Proof.
  intros a b c. unfold str_le, String.leb.
  destruct (String.compare a b) eqn:Hab; [| |done].
  - apply String.compare_eq_iff in Hab as ->. done.
  - destruct (String.compare b c) eqn:Hbc; [| |done]; intros _ _.
    + apply String.compare_eq_iff in Hbc as <-. by rewrite Hab.
    + apply OrderedTypeEx.String_as_OT.cmp_lt in Hab, Hbc.
      pose proof (OrderedTypeEx.String_as_OT.lt_trans _ _ _ Hab Hbc) as Hac.
      apply OrderedTypeEx.String_as_OT.cmp_lt in Hac.
      unfold OrderedTypeEx.String_as_OT.cmp in Hac. by rewrite Hac.
Qed.

(** Sorting forgets the order the listing came in. *)
Lemma js_sort_permutation (l1 l2 : list string) :
  l1 ≡ₚ l2 → js_sort l1 = js_sort l2.
Proof.
  intros Hp. unfold js_sort.
  apply (Sorted_unique str_le); [apply Sorted_merge_sort; apply _ ..|].
  by rewrite !merge_sort_Permutation.
Qed.

Lemma js_sort_sorted (l : list string) : Sorted str_le (js_sort l) ∧ js_sort l ≡ₚ l.
Proof.
  split; [apply Sorted_merge_sort, _ | apply merge_sort_Permutation].
Qed.

Lemma hash_item_permutation (readdir1 readdir2 : path → list string) home item :
  (∀ p, readdir1 p ≡ₚ readdir2 p) →
  hash_item readdir1 home item = hash_item readdir2 home item.
Proof.
  intros Hp. unfold hash_item.
  destruct (stat home (expandHome (source item))) as [[d|es]|]; [done| |done].
  by rewrite (js_sort_permutation _ _ (Hp (expandHome (source item)))).
Qed.

(** C9: the fingerprint is a function of the on-disk state and the
    keychain value alone: two runs whose directory listings enumerate the
    same names in different orders feed the same chunks, in the same
    order, to the hash and return the same digest. *)
Theorem C9_fingerprint_ignores_listing_order `{Crypto, Json}
    (readdir1 readdir2 : path → list string)
    (platform : string) (home : node) (keychain : option json) :
  (∀ p, readdir1 p ≡ₚ readdir2 p) →
  calculateFilesHash readdir1 platform home keychain =
  calculateFilesHash readdir2 platform home keychain.
Proof.
  intros Hp. unfold calculateFilesHash. do 3 f_equal.
  induction BACKUP_PATHS as [|item items IH]; [done|].
  simpl. by rewrite IH, (hash_item_permutation readdir1 readdir2).
Qed.

Lemma C9_fingerprint_witness :
  let ls1 := λ _ : path, ["settings.json"; "projects/a.jsonl"; "projects"] in
  let ls2 := λ _ : path, ["projects"; "projects/a.jsonl"; "settings.json"] in
  @calculateFilesHash id_crypto text_json ls1 "darwin" sample_home (Some "tok") =
  @calculateFilesHash id_crypto text_json ls2 "darwin" sample_home (Some "tok").
Proof.
  intros ls1 ls2.
  apply (@C9_fingerprint_ignores_listing_order id_crypto text_json ls1 ls2).
  intros p. unfold ls1, ls2.
  apply (Permutation_rev ["settings.json"; "projects/a.jsonl"; "projects"]).
Defined.

Example fingerprint_probe :
  @calculateFilesHash id_crypto text_json
    (λ _, ["settings.json"; "projects/a.jsonl"; "projects"])
    "darwin" sample_home (Some "tok")
  = "projects|projects/a.jsonl|settings.json" +:+ "x" +:+ "{}" +:+ "cfg" +:+ "tok".
Proof. vm_compute. reflexivity. Qed.

(** ** 9. Restore: the copy-over loop *)

(** C10 (evaluated on the code): [~/.claude] exists, so [cp -r] copies the
    extracted [.claude] INTO it.  The profile's [.claude/settings.json] is
    not written over [~/.claude/settings.json], which keeps its local
    bytes; it is written over [~/.claude/.claude/settings.json], a local
    file the profile has no entry for. *)
Theorem C10_restore_nests_into_existing_directory :
  let home' := restore_copy incoming_profile nested_home in
  stat incoming_profile [".claude"; ".claude"; "settings.json"] = None ∧
  stat nested_home [".claude"; ".claude"; "settings.json"] = Some (File "mine") ∧
  stat home' [".claude"; ".claude"; "settings.json"] = Some (File "theirs") ∧
  stat incoming_profile [".claude"; "settings.json"] = Some (File "theirs") ∧
  stat home' [".claude"; "settings.json"] = Some (File "local") ∧
  stat home' [".claude.json"] = Some (File "cfg").
Proof. vm_compute. repeat split; reflexivity. Qed.

(** What does hold of the loop: it never removes a path from the home tree. *)
Lemma graft_keeps p f : keeps f → keeps (graft p f).
Proof.
  intros Hf. induction p as [|x p IH]; intros o q Hq; simpl; [by apply Hf|].
  destruct o as [[d|es]|]; simpl in Hq; [done| |by destruct Hq].
  destruct q as [|y q]; [done|]. simpl in *.
  destruct (decide (x = y)) as [->|Hxy].
  - rewrite lookup_set_entry_eq. simpl. by apply IH.
  - by rewrite lookup_set_entry_ne.
Qed.

Lemma put_file_keeps d : keeps (put_file d).
Proof.
  intros [[d'|es]|] q Hq; simpl in *; [|done|by destruct Hq].
  destruct q; [done | simpl in Hq; by destruct Hq].
Qed.

Lemma cp_onto_keeps src : keeps (cp_onto src).
Proof.
  induction src as [d|ks IH] using node_nested_ind; intros o q Hq.
  - destruct o as [[d'|es]|]; simpl in *; [|done|by destruct Hq].
    destruct q; [done | simpl in Hq; by destruct Hq].
  - destruct o as [[d'|es]|]; simpl in Hq; [done| |by destruct Hq].
    destruct q as [|y q]; [done|]. simpl in *.
    revert es Hq. induction ks as [|[x c] ks IHks]; intros es Hq; [done|].
    apply Forall_cons in IH as [Hc Hks]. simpl. apply IHks; [done|].
    destruct (decide (x = y)) as [->|Hxy].
    + rewrite lookup_set_entry_eq. simpl. by apply Hc.
    + by rewrite lookup_set_entry_ne.
Qed.

Lemma graft_absent_keeps p f fs q :
  stat fs p = None → is_Some (stat fs q) → is_Some (stat (graft p f (Some fs)) q).
Proof.
  revert fs q. induction p as [|x p IH]; intros fs q Hp Hq; [done|].
  destruct fs as [d|es]; [done|]. destruct q as [|y q]; [done|]. simpl in *.
  destruct (decide (x = y)) as [->|Hxy].
  - rewrite lookup_set_entry_eq. simpl.
    destruct (lookup_entry y es) as [c|]; simpl in *; [by apply IH | by destruct Hq].
  - by rewrite lookup_set_entry_ne.
Qed.

Lemma restore_item_keeps ext home item q :
  is_Some (stat home q) → is_Some (stat (restore_item ext home item) q).
Proof.
  intros Hq. unfold restore_item, cp_r, copyFile, write_file.
  destruct (stat ext (components (dest item))) as [[d|es]|]; [| |done].
  - by apply (graft_keeps _ _ (put_file_keeps d) (Some home)).
  - destruct (stat home (expandHome (source item))) as [[d'|es']|] eqn:Hst; [done| |].
    + by apply (graft_keeps _ _ (cp_onto_keeps (Dir es)) (Some home)).
    + by apply graft_absent_keeps.
Qed.

Lemma restore_copy_keeps ext home q :
  is_Some (stat home q) → is_Some (stat (restore_copy ext home) q).
Proof.
  unfold restore_copy. revert home.
  induction BACKUP_PATHS as [|item items IH]; intros home Hq; [done|].
  simpl. by apply IH, restore_item_keeps.
Qed.

(** On a machine where none of the three paths exists yet, the loop puts
    each extracted entry at its configured path. *)
Example restore_into_fresh_home :
  restore_copy incoming_profile (Dir [("notes.txt", File "n")]) =
  Dir [ ("notes.txt", File "n");
        (".claude", Dir [ ("settings.json", File "theirs");
                          (".credentials.json", File "{}") ]);
        (".claude.json", File "cfg") ].
Proof. vm_compute. reflexivity. Qed.

(** ** 10. Watch mode: what every run keeps *)

Lemma run_snoc (s : watch) (es : list event) (e : event) :
  run s (es ++ [e]) = run s es ≫= λ s', step s' e.
Proof.
  rewrite run_app. destruct (run s es) as [s'|]; [simpl|done].
  by destruct (step s' e).
Qed.

Lemma last_change_time_snoc s0 es e seen s :
  run s0 es = Some s → is_Some (step s e) →
  last_change_time s0 (es ++ [e]) seen =
  match e with
  | Change => Some (clock s)
  | _ => last_change_time s0 es seen
  end.
Proof.
  revert s0 seen. induction es as [|e' es IH]; intros s0 seen; simpl.
  - intros [= ->] [s' ->]. by destruct e.
  - destruct (step s0 e') as [s1|]; [|done]. intros Hrun Hstep.
    by apply IH.
Qed.

Ltac wsimpl :=
  unfold start_save, set_lastSaveTime, set_pendingSave, set_changeDetected,
    set_saveCount, set_pendingSaveTimeout, set_timers, set_tasks, set_fresh,
    set_clock, log_mark in *;
  simpl in *.

Lemma step_one_timer s e s' seen :
  one_timer s → timers_after seen s → step s e = Some s' →
  one_timer s' ∧
  timers_after (match e with Change => Some (clock s) | _ => seen end) s'.
Proof.
  unfold one_timer, timers_after.
  intros H1 HJ Hstep. destruct e as [|h|k ok|k|dt]; simpl in Hstep.
  - injection Hstep as <-. unfold handleFileChange, setTimeout, clearTimeout.
    wsimpl.
    assert (Hgone : ∀ h tm,
      match pendingSaveTimeout s with
      | Some h0 => delete h0 (timers s)
      | None => timers s
      end !! h = Some tm → False).
    { intros h tm. destruct (pendingSaveTimeout s) as [h0|] eqn:Hh.
      - rewrite lookup_delete_Some. intros [Hne Hl].
        apply H1 in Hl. congruence.
      - intros Hl. apply H1 in Hl. congruence. }
    destruct (pendingSaveTimeout s) as [h0|]; wsimpl; split; intros h tm;
      rewrite lookup_insert_Some; (intros [[<- <-]|[_ Hl]];
      [|by destruct (Hgone _ _ Hl)]); simpl; first [done | eexists; split; [done|lia]].
  - destruct (timers s !! h) as [tm0|] eqn:Hh; [|done].
    destruct (due tm0 <=? clock s)%Z eqn:Hdue; [|done].
    apply Z.leb_le in Hdue. injection Hstep as <-.
    assert (Hgone : ∀ h' tm, delete h (timers s) !! h' = Some tm → False).
    { intros h' tm. rewrite lookup_delete_Some. intros [Hne Hl].
      apply H1 in Hl. apply H1 in Hh. congruence. }
    destruct (HJ _ _ Hh) as (c & -> & Hc).
    destruct (cb tm0).
    + unfold debounce_callback, setTimeout. wsimpl.
      destruct (changeDetected s); wsimpl;
        [|split; intros h' tm Hl; by destruct (Hgone _ _ Hl)].
      destruct (minSaveInterval <=? clock s - lastSaveTime s)%Z eqn:Hint; wsimpl;
        [split; intros h' tm Hl; by destruct (Hgone _ _ Hl)|].
      apply Z.leb_gt in Hint.
      destruct (pendingSave s); wsimpl;
        [split; intros h' tm Hl; by destruct (Hgone _ _ Hl)|].
      split; intros h' tm; rewrite lookup_insert_Some;
        (intros [[<- <-]|[_ Hl]]; [|by destruct (Hgone _ _ Hl)]); simpl;
        first [done | eexists; split; [done|lia]].
    + unfold deferred_callback. wsimpl.
      destruct (pendingSave s); wsimpl;
        split; intros h' tm Hl; by destruct (Hgone _ _ Hl).
  - destruct (tasks s !! k) as [[b [|]]|]; try done. injection Hstep as <-.
    unfold after_save. destruct b, ok; wsimpl; split; done.
  - destruct (tasks s !! k) as [[b [|]]|]; try done. injection Hstep as <-.
    unfold after_hash. wsimpl. done.
  - destruct (0 <=? dt)%Z; [|done]. injection Hstep as <-. wsimpl. done.
Qed.

Lemma run_one_timer es : ∀ s0 seen s,
  one_timer s0 → timers_after seen s0 → run s0 es = Some s →
  one_timer s ∧ timers_after (last_change_time s0 es seen) s.
Proof.
  induction es as [|e es IH]; intros s0 seen s H1 HJ; simpl.
  - by intros [= <-].
  - destruct (step s0 e) as [s1|] eqn:Hstep; [|done]. intros Hrun.
    destruct (step_one_timer _ _ _ _ H1 HJ Hstep) as [H1' HJ'].
    by apply (IH s1).
Qed.

Lemma boot_one_timer t0 : one_timer (boot t0) ∧ timers_after None (boot t0).
Proof. split; intros h tm; simpl; by rewrite lookup_empty. Qed.

(** At any moment of any run at most one timer is armed, and it is the
    one the handle [pendingSaveTimeout] refers to. *)
Theorem watch_keeps_a_single_timer (t0 : Z) (es : list event) (s : watch) :
  run (boot t0) es = Some s →
  timers s = ∅ ∨
  ∃ h tm, pendingSaveTimeout s = Some h ∧ timers s = {[ h := tm ]}.
Proof.
  intros Hrun.
  destruct (boot_one_timer t0) as [H1 HJ].
  destruct (run_one_timer es _ _ _ H1 HJ Hrun) as [Hone _].
  destruct (pendingSaveTimeout s) as [h|] eqn:Hh.
  - destruct (timers s !! h) as [tm|] eqn:Hl.
    + right. exists h, tm. split; [done|]. apply map_eq. intros i.
      destruct (decide (i = h)) as [->|Hne].
      * by rewrite lookup_singleton_eq.
      * rewrite lookup_singleton_ne by done.
        destruct (timers s !! i) as [tm'|] eqn:Hi; [|done].
        apply Hone in Hi. congruence.
    + left. apply map_eq. intros i. rewrite lookup_empty.
      destruct (timers s !! i) as [tm'|] eqn:Hi; [|done].
      pose proof (Hone _ _ Hi). congruence.
  - left. apply map_eq. intros i. rewrite lookup_empty.
    destruct (timers s !! i) as [tm'|] eqn:Hi; [|done].
    pose proof (Hone _ _ Hi). congruence.
Qed.

Lemma watch_keeps_a_single_timer_witness :
  ∃ s, run (boot t_boot) (first_save_starts ++ [Change; Tick 100; Change]) = Some s ∧
       (timers s = ∅ ∨
        ∃ h tm, pendingSaveTimeout s = Some h ∧ timers s = {[ h := tm ]}).
Proof.
  eexists. split; [vm_compute; reflexivity|].
  apply (watch_keeps_a_single_timer t_boot
           (first_save_starts ++ [Change; Tick 100; Change])).
  vm_compute. reflexivity.
Defined.

Lemma saves_started_snoc s m :
  length (List.filter is_start (journal s ++ [m])) =
  saves_started s + (if is_start m then 1 else 0).
Proof.
  unfold saves_started. rewrite List.filter_app, length_app. simpl.
  by destruct (is_start m).
Qed.

(** A save starts only when a timer fires, and never sooner than
    [debounceDelay] after the latest change notification. *)
Theorem save_starts_only_after_quiet_period
    (t0 : Z) (es : list event) (s s' : watch) (e : event) :
  run (boot t0) es = Some s →
  step s e = Some s' →
  saves_started s' ≠ saves_started s →
  ∃ c, last_change_time (boot t0) es None = Some c ∧
       (c + debounceDelay ≤ clock s)%Z ∧
       (∃ h, e = Fire h) ∧
       journal s' = journal s ++ [SaveStarted (clock s)].
Proof.
  intros Hrun Hstep Hnew.
  destruct (boot_one_timer t0) as [H1 HJ].
  destruct (run_one_timer es _ _ _ H1 HJ Hrun) as [_ Hafter].
  destruct e as [|h|k ok|k|dt]; simpl in Hstep.
  - injection Hstep as <-. destruct Hnew.
    unfold saves_started, handleFileChange, setTimeout, clearTimeout. wsimpl.
    by destruct (pendingSaveTimeout s).
  - destruct (timers s !! h) as [tm0|] eqn:Hh; [|done].
    destruct (due tm0 <=? clock s)%Z eqn:Hdue; [|done].
    apply Z.leb_le in Hdue. injection Hstep as <-.
    destruct (Hafter _ _ Hh) as (c & Hc & Hle).
    exists c. split; [done|]. split; [lia|]. split; [by exists h|].
    destruct (cb tm0).
    + unfold debounce_callback, setTimeout in *. wsimpl.
      destruct (changeDetected s); wsimpl; [|done].
      destruct (minSaveInterval <=? clock s - lastSaveTime s)%Z; wsimpl; [done|].
      by destruct (pendingSave s).
    + unfold deferred_callback in *. wsimpl.
      by destruct (pendingSave s).
  - destruct (tasks s !! k) as [[b [|]]|]; try done. injection Hstep as <-.
    destruct Hnew. unfold after_save.
    destruct b, ok; unfold saves_started; wsimpl;
      rewrite List.filter_app, length_app; simpl; lia.
  - destruct (tasks s !! k) as [[b [|]]|]; try done. injection Hstep as <-.
    by destruct Hnew.
  - destruct (0 <=? dt)%Z; [|done]. injection Hstep as <-. by destruct Hnew.
Qed.

Lemma save_starts_only_after_quiet_period_witness :
  ∃ s s' c,
    run (boot t_boot) [Change; Tick 1500; Change; Tick 2000] = Some s ∧
    step s (Fire 1) = Some s' ∧
    last_change_time (boot t_boot) [Change; Tick 1500; Change; Tick 2000] None = Some c ∧
    (c + debounceDelay ≤ clock s)%Z ∧
    journal s' = journal s ++ [SaveStarted (clock s)].
Proof.
  destruct (step (boot t_boot) Change) as [s1|] eqn:H1; [|vm_compute in H1; discriminate].
  destruct (run (boot t_boot) [Change; Tick 1500; Change; Tick 2000]) as [s|] eqn:Hs;
    [|vm_compute in Hs; discriminate].
  destruct (step s (Fire 1)) as [s'|] eqn:Hs';
    [|vm_compute in Hs; injection Hs as <-; vm_compute in Hs'; discriminate].
  assert (Hnew : saves_started s' ≠ saves_started s).
  { vm_compute in Hs. injection Hs as <-. vm_compute in Hs'. injection Hs' as <-.
    vm_compute. discriminate. }
  destruct (save_starts_only_after_quiet_period t_boot _ s s' (Fire 1) Hs Hs' Hnew)
    as (c & Hc & Hle & _ & Hj).
  exists s, s', c. done.
Defined.

Lemma step_counts s e s' :
  handles_fresh s →
  saveCount s + awaiting_hash s = saves_succeeded s →
  step s e = Some s' →
  handles_fresh s' ∧ saveCount s' + awaiting_hash s' = saves_succeeded s'.
Proof.
  unfold handles_fresh, awaiting_hash, saves_succeeded.
  intros Hf Hc Hstep. destruct e as [|h|k ok|k|dt]; simpl in Hstep.
  - injection Hstep as <-. unfold handleFileChange, setTimeout, clearTimeout.
    wsimpl. destruct (pendingSaveTimeout s); wsimpl;
      (split; [intros k Hk; apply Hf in Hk; lia | done]).
  - destruct (timers s !! h) as [tm0|]; [|done].
    destruct (due tm0 <=? clock s)%Z; [|done]. injection Hstep as <-.
    assert (Hnew : tasks s !! fresh s = None).
    { destruct (tasks s !! fresh s) eqn:E; [|done].
      assert (fresh s < fresh s) by (apply Hf; by rewrite E). lia. }
    assert (Hstart : ∀ b,
      (∀ k, is_Some (<[fresh s := Task b AwaitSave]> (tasks s) !! k) → k < S (fresh s)) ∧
      saveCount s +
        size (filter (λ kt, is_saving kt.2 = false)
                (<[fresh s := Task b AwaitSave]> (tasks s))) =
      length (List.filter is_success (journal s ++ [SaveStarted (clock s)]))).
    { intros b. split.
      - intros k. rewrite lookup_insert_is_Some. intros [<-|[_ Hk]]; [lia|].
        apply Hf in Hk. lia.
      - rewrite map_filter_insert_False by (simpl; done).
        rewrite delete_id by done.
        rewrite List.filter_app, length_app. simpl. lia. }
    destruct (cb tm0).
    + unfold debounce_callback, setTimeout. wsimpl.
      destruct (changeDetected s); wsimpl; [|done].
      destruct (minSaveInterval <=? clock s - lastSaveTime s)%Z; wsimpl;
        [apply Hstart|].
      destruct (pendingSave s); wsimpl; [done|].
      split; [intros k Hk; apply Hf in Hk; lia | done].
    + unfold deferred_callback. wsimpl.
      destruct (pendingSave s); wsimpl; [apply Hstart | done].
  - destruct (tasks s !! k) as [[b [|]]|] eqn:Hk; try done. injection Hstep as <-.
    assert (Hout : filter (λ kt, is_saving kt.2 = false) (tasks s) !! k = None).
    { apply map_lookup_filter_None_2. right. intros x Hx.
      rewrite Hk in Hx. injection Hx as <-. simpl. done. }
    assert (Hok :
      (∀ k', is_Some (<[k := Task b AwaitHash]> (tasks s) !! k') → k' < fresh s) ∧
      saveCount s +
        size (filter (λ kt, is_saving kt.2 = false)
                (<[k := Task b AwaitHash]> (tasks s))) =
      length (List.filter is_success (journal s ++ [SaveEnded (clock s) true]))).
    { split.
      - intros k'. rewrite lookup_insert_is_Some. intros [<-|[_ Hk']].
        + apply Hf. by rewrite Hk.
        + by apply Hf.
      - rewrite map_filter_insert_True by (simpl; done).
        rewrite map_size_insert_None by done.
        rewrite List.filter_app, length_app. simpl. lia. }
    assert (Hko :
      (∀ k', is_Some (delete k (tasks s) !! k') → k' < fresh s) ∧
      saveCount s +
        size (filter (λ kt, is_saving kt.2 = false) (delete k (tasks s))) =
      length (List.filter is_success (journal s ++ [SaveEnded (clock s) false]))).
    { split.
      - intros k'. rewrite lookup_delete_is_Some. intros [_ Hk']. by apply Hf.
      - rewrite map_filter_delete, delete_id by done.
        rewrite List.filter_app, length_app. simpl. lia. }
    unfold after_save. destruct b, ok; wsimpl; done.
  - destruct (tasks s !! k) as [[b [|]]|] eqn:Hk; try done. injection Hstep as <-.
    unfold after_hash. wsimpl. split.
    + intros k'. rewrite lookup_delete_is_Some. intros [_ Hk']. by apply Hf.
    + rewrite map_filter_delete.
      assert (Hin : filter (λ kt, is_saving kt.2 = false) (tasks s) !! k
                    = Some (Task b AwaitHash))
        by (by apply map_lookup_filter_Some_2).
      rewrite map_size_delete, Hin. simpl.
      assert (size (filter (λ kt, is_saving kt.2 = false) (tasks s)) ≠ 0).
      { intros Hz. apply map_size_empty_inv in Hz. rewrite Hz in Hin.
        by rewrite lookup_empty in Hin. }
      lia.
  - destruct (0 <=? dt)%Z; [|done]. injection Hstep as <-. wsimpl. done.
Qed.

Lemma run_counts es : ∀ s0 s,
  handles_fresh s0 →
  saveCount s0 + awaiting_hash s0 = saves_succeeded s0 →
  run s0 es = Some s →
  handles_fresh s ∧ saveCount s + awaiting_hash s = saves_succeeded s.
Proof.
  induction es as [|e es IH]; intros s0 s Hf Hc; simpl.
  - by intros [= <-].
  - destruct (step s0 e) as [s1|] eqn:Hstep; [|done]. intros Hrun.
    destruct (step_counts _ _ _ Hf Hc Hstep) as [Hf' Hc'].
    by apply (IH s1).
Qed.

(** The save counter counts the saves that have uploaded and re-hashed:
    together with the callbacks still awaiting the hash it equals the
    number of successful uploads, so it never runs ahead of them. *)
Theorem save_counter_counts_successful_saves (t0 : Z) (es : list event) (s : watch) :
  run (boot t0) es = Some s →
  saveCount s + awaiting_hash s = saves_succeeded s.
Proof.
  intros Hrun. apply (run_counts es (boot t0) s); [| |done].
  - intros k. simpl. rewrite lookup_empty. by intros [? ?].
  - unfold awaiting_hash, saves_succeeded. simpl.
    by rewrite map_filter_empty, map_size_empty.
Qed.

Lemma save_counter_counts_witness :
  ∃ s, run (boot t_boot)
         (first_save_starts ++ [Tick 500; Change; Tick 2000; Fire 2;
                                SaveSettles 1 true; SaveSettles 3 false;
                                HashSettles 1]) = Some s ∧
       saveCount s + awaiting_hash s = saves_succeeded s ∧
       saveCount s = 1.
Proof.
  eexists. split; [vm_compute; reflexivity|]. split; [|reflexivity].
  apply (save_counter_counts_successful_saves t_boot
           (first_save_starts ++ [Tick 500; Change; Tick 2000; Fire 2;
                                  SaveSettles 1 true; SaveSettles 3 false;
                                  HashSettles 1])).
  vm_compute. reflexivity.
Defined.

(** After the [SIGINT] handler no timer is armed: clearing the one handle
    is enough, whatever happened before. *)
Theorem sigint_leaves_no_timer (t0 : Z) (es : list event) (s : watch) :
  run (boot t0) es = Some s → timers (sigint s) = ∅.
Proof.
  intros Hrun.
  destruct (boot_one_timer t0) as [H1 HJ].
  destruct (run_one_timer es _ _ _ H1 HJ Hrun) as [Hone _].
  apply map_eq. intros i. rewrite lookup_empty. unfold sigint, clearTimeout.
  destruct (pendingSaveTimeout s) as [h|] eqn:Hh; wsimpl.
  - destruct (delete h (timers s) !! i) as [tm|] eqn:Hi; [|done].
    apply lookup_delete_Some in Hi as [Hne Hi]. apply Hone in Hi. congruence.
  - destruct (timers s !! i) as [tm|] eqn:Hi; [|done].
    apply Hone in Hi. congruence.
Qed.

Lemma sigint_leaves_no_timer_witness :
  ∃ s, run (boot t_boot)
         (first_save_starts ++
          [Tick 1000; SaveSettles 1 true; HashSettles 1; Change; Tick 2000; Fire 2])
       = Some s ∧ size (timers s) = 1 ∧ timers (sigint s) = ∅.
Proof.
  eexists. split; [vm_compute; reflexivity|]. split; [vm_compute; reflexivity|].
  apply (sigint_leaves_no_timer t_boot
           (first_save_starts ++
            [Tick 1000; SaveSettles 1 true; HashSettles 1; Change; Tick 2000; Fire 2])).
  vm_compute. reflexivity.
Defined.

(** ** 11. Store: what the local verification decides *)

Lemma local_check_valid `{Json} home hk v ck :
  valid (local_check home hk v ck) =
  valid v && (c_skipIfKeychainExists ck && hk || negb (c_essential ck) ||
              exists_at home (expandHome (c_path ck))).
Proof.
  unfold local_check, exists_at.
  destruct (c_skipIfKeychainExists ck && hk); simpl; [by rewrite andb_true_r|].
  destruct (stat home (expandHome (c_path ck))) as [[content|es]|]; simpl.
  - rewrite orb_true_r, andb_true_r.
    destruct (includes (c_path ck) ".credentials.json"); [|done].
    by destruct (credentials_incomplete content) as [[|]|].
  - by rewrite orb_true_r, andb_true_r.
  - rewrite orb_false_r. destruct (c_essential ck); simpl.
    + by rewrite andb_false_r.
    + by rewrite andb_true_r.
Qed.

Lemma fold_local_check_valid `{Json} home hk cks v :
  valid (fold_left (local_check home hk) cks v) =
  valid v && forallb (λ ck, c_skipIfKeychainExists ck && hk || negb (c_essential ck) ||
                            exists_at home (expandHome (c_path ck))) cks.
Proof.
  revert v. induction cks as [|ck cks IH]; intros v; simpl.
  - by rewrite andb_true_r.
  - by rewrite IH, local_check_valid, andb_assoc.
Qed.

Lemma verifyLocalFiles_valid_eq `{Json} platform home keychain :
  valid (verifyLocalFiles platform home keychain) =
  (isMacOS platform || exists_at home [".claude"; ".credentials.json"]) &&
  exists_at home [".claude.json"].
Proof.
  unfold verifyLocalFiles. rewrite fold_local_check_valid. unfold local_checks.
  cbn [forallb valid andb c_skipIfKeychainExists c_essential c_path negb orb].
  change (expandHome "~/.claude/.credentials.json") with [".claude"; ".credentials.json"].
  change (expandHome "~/.claude.json") with [".claude.json"].
  destruct (isMacOS platform), (bool_decide (is_Some keychain)); simpl;
    by rewrite ?andb_true_r, ?orb_true_r.
Qed.

(** [verifyLocalFiles] lets a store through exactly when [~/.claude.json]
    can be stat'ed and, off macOS, [~/.claude/.credentials.json] too:
    neither the keychain value nor the content of the credentials file
    (incomplete or unparsable credentials are issues only) decides it. *)
Theorem local_verification_decided_by_presence `{Json}
    (platform : string) (home : node) (keychain : option json) :
  valid (verifyLocalFiles platform home keychain) = true ↔
  is_Some (stat home [".claude.json"]) ∧
  (isMacOS platform = false → is_Some (stat home [".claude"; ".credentials.json"])).
Proof.
  rewrite verifyLocalFiles_valid_eq. unfold exists_at.
  destruct (isMacOS platform),
    (stat home [".claude"; ".credentials.json"]) as [c|],
    (stat home [".claude.json"]) as [j|]; simpl; split;
    try done; try (intros [[? ?] ?]; done); try (intros [? ?]; split; eauto; done).
  all: intros [_ Hc]; by destruct (Hc eq_refl).
Qed.








(** ** 12. Restore: what the copy-over loop leaves alone and where it writes *)

Lemma graft_other_head x p f n y q :
  x ≠ y → stat (graft (x :: p) f (Some n)) (y :: q) = stat n (y :: q).
Proof.
  intros Hne. destruct n as [d|es]; simpl; [done|].
  by rewrite lookup_set_entry_ne.
Qed.

Lemma restore_item_other ext home item x y q :
  expandHome (source item) = [x] → x ≠ y →
  stat (restore_item ext home item) (y :: q) = stat home (y :: q).
Proof.
  intros Hx Hne. unfold restore_item, cp_r, copyFile, write_file. rewrite Hx.
  destruct (stat ext (components (dest item))) as [[d|es]|]; [| |done].
  - by apply graft_other_head.
  - destruct (stat home [x]) as [[d'|es']|]; [| |by apply graft_other_head]; [done|].
    by apply (graft_other_head x [basename (components (dest item))]).
Qed.

Lemma backup_paths_cases item :
  item ∈ BACKUP_PATHS →
  (item = BackupPath "~/.claude" ".claude") ∨
  (item = BackupPath "~/.claude.json" ".claude.json") ∨
  (item = BackupPath "~/.claude.json.backup" ".claude.json.backup").
Proof.
  unfold BACKUP_PATHS. rewrite !elem_of_cons, elem_of_nil. tauto.
Qed.

Lemma restore_copy_unfold ext home :
  restore_copy ext home =
  restore_item ext
    (restore_item ext
       (restore_item ext home (BackupPath "~/.claude" ".claude"))
       (BackupPath "~/.claude.json" ".claude.json"))
    (BackupPath "~/.claude.json.backup" ".claude.json.backup").
Proof. reflexivity. Qed.


(** Whatever a restore does and however it ends, every path that existed
    in the home tree still exists afterwards: nothing is removed. *)
Theorem restore_never_removes_a_path `{Codec, Json, Http}
    (profileName platform : string) (home home' : node)
    (keychain keychain' : option json) (view : gist_view) (o : outcome) (q : path) :
  restoreProfile profileName platform home keychain view = (o, home', keychain') →
  is_Some (stat home q) → is_Some (stat home' q).
Proof.
  unfold restoreProfile.
  destruct (negb (PROFILE_NAME_REGEX_test profileName)); [by intros [= <- <- <-]|].
  destruct (view_id view); [|by intros [= <- <- <-]].
  destruct (restore_download view profileName) as [f|z]; [by intros [= <- <- <-]|].
  destruct (negb (valid (verifyDownloadedProfile platform z)));
    [by intros [= <- <- <-]|].
  intros [= <- <- <-]. apply restore_copy_keeps.
Qed.

Lemma restore_never_removes_witness :
  ∃ home',
    @restoreProfile table_codec text_json echo_http "work" "linux" nested_home None
      stored_view = (Completed, home', None) ∧
    is_Some (stat home' [".claude"; ".claude"; "settings.json"]).
Proof.
  eexists. split; [vm_compute; reflexivity|].
  eapply (@restore_never_removes_a_path table_codec text_json echo_http
            "work" "linux" nested_home _ None None stored_view Completed).
  - vm_compute. reflexivity.
  - vm_compute. eexists. reflexivity.
Defined.



Lemma restore_item_directory ext home item :
  isDirectory home = true → isDirectory (restore_item ext home item) = true.
Proof.
  intros Hd. destruct home as [d|hs]; [done|].
  unfold restore_item, cp_r, copyFile, write_file.
  destruct (stat ext (components (dest item))) as [[d|es]|]; [| |done].
  - destruct (expandHome (source item)); [done|]. done.
  - destruct (stat (Dir hs) (expandHome (source item))) as [[d'|es']|]; [done| |].
    + destruct (expandHome (source item)); done.
    + destruct (expandHome (source item)) eqn:E; [|done]. simpl in *. done.
Qed.

Lemma restore_item_fresh ext home item x n :
  isDirectory home = true →
  expandHome (source item) = [x] →
  stat home [x] = None →
  stat ext (components (dest item)) = Some n →
  stat (restore_item ext home item) [x] = Some n.
Proof.
  intros Hd Hx Hnone Hext. destruct home as [d|hs]; [done|].
  unfold restore_item, cp_r, copyFile, write_file. rewrite Hx, Hext.
  destruct n as [d|es].
  - apply stat_write_vacant. simpl in *.
    by destruct (lookup_entry x hs).
  - rewrite Hnone. simpl. by rewrite lookup_set_entry_eq.
Qed.

(** Where a configured path does not exist yet, the loop puts the
    extracted entry, file or whole directory, at exactly that path. *)
Lemma restore_copy_fresh ext home item n :
  isDirectory home = true →
  item ∈ BACKUP_PATHS →
  stat home (expandHome (source item)) = None →
  stat ext (components (dest item)) = Some n →
  stat (restore_copy ext home) (expandHome (source item)) = Some n.
Proof.
  intros Hd Hitem Hnone Hext. rewrite restore_copy_unfold.
  apply backup_paths_cases in Hitem as [-> | [-> | ->]].
  - change (expandHome (source (BackupPath "~/.claude" ".claude"))) with [".claude"] in *.
    rewrite (restore_item_other _ _ _ ".claude.json.backup") by done.
    rewrite (restore_item_other _ _ _ ".claude.json") by done.
    by apply restore_item_fresh.
  - change (expandHome (source (BackupPath "~/.claude.json" ".claude.json")))
      with [".claude.json"] in *.
    rewrite (restore_item_other _ _ _ ".claude.json.backup") by done.
    apply restore_item_fresh; [by apply restore_item_directory|done| |done].
    by rewrite (restore_item_other _ _ _ ".claude") by done.
  - change (expandHome (source (BackupPath "~/.claude.json.backup" ".claude.json.backup")))
      with [".claude.json.backup"] in *.
    apply restore_item_fresh;
      [by do 2 apply restore_item_directory|done| |done].
    rewrite (restore_item_other _ _ _ ".claude.json") by done.
    by rewrite (restore_item_other _ _ _ ".claude") by done.
Qed.

(** On a machine that has none of the three paths yet, a completed restore
    puts every entry of the downloaded archive's top level at its
    configured path, directories with all they contain. *)
Theorem restore_into_fresh_home_places_entries `{Codec, Json, Http}
    (profileName platform : string) (home home' : node)
    (keychain keychain' : option json) (view : gist_view) (zipBuffer : blob)
    (item : backup_path) (n : node) :
  isDirectory home = true →
  (∀ i, i ∈ BACKUP_PATHS → stat home (expandHome (source i)) = None) →
  restore_download view profileName = inr zipBuffer →
  restoreProfile profileName platform home keychain view = (Completed, home', keychain') →
  item ∈ BACKUP_PATHS →
  stat (extract zipBuffer) (components (dest item)) = Some n →
  stat home' (expandHome (source item)) = Some n.
Proof.
  intros Hd Hfresh Hdl. unfold restoreProfile. rewrite Hdl.
  destruct (negb (PROFILE_NAME_REGEX_test profileName)); [done|].
  destruct (view_id view); [|done].
  destruct (negb (valid (verifyDownloadedProfile platform zipBuffer))); [done|].
  intros [= <- <-] Hitem Hext. apply restore_copy_fresh; auto.
Qed.

Lemma restore_into_fresh_home_witness :
  ∃ home',
    @restoreProfile table_codec text_json echo_http "work" "linux"
      (Dir [("notes.txt", File "n")]) None stored_view = (Completed, home', None) ∧
    stat home' [".claude"] =
      Some (Dir [(".credentials.json", File "{}"); ("settings.json", File "theirs")]).
Proof.
  eexists. split; [vm_compute; reflexivity|].
  eapply (@restore_into_fresh_home_places_entries table_codec text_json echo_http
            "work" "linux" (Dir [("notes.txt", File "n")]) _ None None stored_view
            (Some stored_archive) (BackupPath "~/.claude" ".claude")).
  - reflexivity.
  - intros i Hi. apply backup_paths_cases in Hi as [-> | [-> | ->]]; reflexivity.
  - vm_compute. reflexivity.
  - vm_compute. reflexivity.
  - left.
  - vm_compute. reflexivity.
Defined.

(** ** 13. Store, then restore on another machine *)

Lemma unzip_collect_stat `{Json} platform home keychain :
  wf home = true →
  Forall (λ pd, stat (unzip_entries (fst (collect platform home keychain)) (Dir []))
                  (fst pd) = Some (File (snd pd)))
    (fst (collect platform home keychain)).
Proof.
  intros Hwf. apply unzip_entries_stat; [by apply collect_spread | apply collect_vacant].
Qed.

Lemma unzip_collect_source `{Json} platform home keychain item rel data :
  wf home = true → item ∈ BACKUP_PATHS →
  stat home (expandHome (source item) ++ rel) = Some (File data) →
  stat (unzip_entries (fst (collect platform home keychain)) (Dir []))
    (components (dest item) ++ rel) = Some (File data).
Proof.
  intros Hwf Hitem Hst.
  pose proof (unzip_collect_stat platform home keychain Hwf) as Hall.
  rewrite Forall_forall in Hall.
  apply (Hall (components (dest item) ++ rel, data)).
  rewrite collect_entries. apply elem_of_app. left.
  apply list_elem_of_In, in_flat_map. exists item. split.
  - by apply list_elem_of_In.
  - by apply list_elem_of_In, item_entries_of_stat.
Qed.

Lemma unzip_collect_keychain `{Json} platform home keychain creds :
  wf home = true → isMacOS platform = true → keychain = Some creds →
  stat (unzip_entries (fst (collect platform home keychain)) (Dir []))
    [".macos.credentials.json"] = Some (File (JSON_stringify_indent2 creds)).
Proof.
  intros Hwf Hmac ->.
  pose proof (unzip_collect_stat platform home (Some creds) Hwf) as Hall.
  rewrite Forall_forall in Hall.
  apply (Hall ([".macos.credentials.json"], JSON_stringify_indent2 creds)).
  rewrite collect_entries. apply elem_of_app. right.
  unfold keychain_entries. rewrite Hmac. left.
Qed.

(** A profile stored from one machine and restored on a machine that has
    none of the three paths yet: if the remote hands back the uploaded text
    (inline or through [raw_url], white space around it aside) and the
    codec reads back what it wrote, the restore passes its verification
    and completes, and every regular file below the donor's sources is at
    the same path, with the same bytes, on the new machine. *)
Theorem store_then_restore_on_fresh_machine `{Codec, Json, Http}
    (profileName platform : string)
    (donor : node) (donorKeychain : option json) (gh : github)
    (effects : list effect)
    (view : gist_view) (fileData : gist_file)
    (home : node) (keychain : option json) :
  let a := fst (collect platform donor donorKeychain) in
  let text := base64_encode (zip_write a) in
  saveProfile profileName platform donor donorKeychain gh = (Completed, effects) →
  wf donor = true →
  (∃ d, stat donor [".claude.json"] = Some (File d)) →
  (if isMacOS platform then is_Some donorKeychain
   else ∃ d, stat donor [".claude"; ".credentials.json"] = Some (File d)) →
  zip_read (zip_write a) = Some a →
  is_empty (trim text) = false →
  base64_decode (trim text) = zip_write a →
  is_Some (view_id view) →
  includes (listing view) (profileName +:+ ".zip.base64") = true →
  files view !! (profileName +:+ ".zip.base64") = Some fileData →
  trim (if truncated fileData then curl (raw_url fileData) else content fileData)
    = trim text →
  isDirectory home = true →
  (∀ i, i ∈ BACKUP_PATHS → stat home (expandHome (source i)) = None) →
  (∃ id, effects = [Finalize a; GistEdit id (profileName +:+ ".zip.base64") text]) ∧
  ∃ home' keychain',
    restoreProfile profileName platform home keychain view =
      (Completed, home', keychain') ∧
    ∀ item rel data,
      item ∈ BACKUP_PATHS →
      stat donor (expandHome (source item) ++ rel) = Some (File data) →
      stat home' (expandHome (source item) ++ rel) = Some (File data).
Proof.
  intros a text Hstore Hwf [dcfg Hcfg] Hcreds Hzip Hnonempty Hb64 [vid Hvid] Hinc
    Hfile Hremote Hdir Hfresh.
  (* the store *)
  assert (Hname : PROFILE_NAME_REGEX_test profileName = true ∧
                  ∃ id, effects = [Finalize a; GistEdit id (profileName +:+ ".zip.base64") text]).
  { revert Hstore. unfold saveProfile. subst text a.
    destruct (PROFILE_NAME_REGEX_test profileName); [|done]. simpl.
    destruct (negb (valid (verifyLocalFiles platform donor donorKeychain))); [done|].
    destruct (collect platform donor donorKeychain) as [a0 hasFiles]. simpl.
    destruct (negb hasFiles); [done|].
    destruct (gistId gh) as [id|]; [|done].
    destruct (upload_failed _); [done|]. intros [= <-]. split; [done|]. by exists id. }
  destruct Hname as [Hname Heff]. split; [done|].
  (* the download *)
  assert (Hdl : restore_download view profileName = inr (zip_write a)).
  { unfold restore_download, restore_base64Data. rewrite Hinc, Hfile. simpl.
    assert (Hsel : (if truncated fileData then trim (curl (raw_url fileData))
                    else trim (content fileData)) = trim text)
      by (rewrite <- Hremote; by destruct (truncated fileData)).
    rewrite Hsel, Hnonempty. by rewrite Hb64. }
  (* the verification of the downloaded archive *)
  set (dir := unzip_entries a (Dir [])).
  assert (Hgate : verifyDownloadedProfile platform (zip_write a) =
                  {| valid := true; issues := [] |}).
  { unfold verifyDownloadedProfile. rewrite Hzip. apply gate_accepts_essentials.
    intros ck Hck Hess. unfold downloaded_checks in Hck.
    rewrite !elem_of_cons, elem_of_nil in Hck.
    destruct Hck as [-> | [-> | [-> | []]]]; simpl in Hess.
    - apply negb_true_iff in Hess. rewrite Hess in Hcreds.
      destruct Hcreds as [d Hd]. exists d.
      apply (unzip_collect_source platform donor donorKeychain
               (BackupPath "~/.claude" ".claude") [".credentials.json"] d Hwf);
        [left | done].
    - rewrite Hess in Hcreds. destruct Hcreds as [creds Hk].
      exists (JSON_stringify_indent2 creds).
      by apply (unzip_collect_keychain platform donor donorKeychain creds).
    - exists dcfg.
      apply (unzip_collect_source platform donor donorKeychain
               (BackupPath "~/.claude.json" ".claude.json") [] dcfg Hwf);
        [right; left | done]. }
  (* the restore *)
  exists (restore_copy dir home), (restore_keychain platform dir keychain). split.
  - unfold restoreProfile, extract. rewrite Hname, Hvid, Hdl, Hgate, Hzip. done.
  - intros item rel data Hitem Hst.
    pose proof (unzip_collect_source platform donor donorKeychain item rel data
                  Hwf Hitem Hst) as Hdirst.
    fold a in Hdirst. fold dir in Hdirst. rewrite stat_app in Hdirst.
    destruct (stat dir (components (dest item))) as [n|] eqn:Hn; [|done].
    simpl in Hdirst. rewrite stat_app.
    rewrite (restore_copy_fresh dir home item n); auto.
Qed.

Lemma store_then_restore_witness :
  ∃ home',
    @restoreProfile table_codec text_json echo_http "work" "linux"
      (Dir [("notes.txt", File "n")]) None stored_view = (Completed, home', None) ∧
    stat home' [".claude"; "settings.json"] = Some (File "theirs") ∧
    stat home' [".claude.json"] = Some (File "cfg").
Proof.
  destruct (@store_then_restore_on_fresh_machine table_codec text_json echo_http
              "work" "linux" donor_home None accepting_github
              [Finalize stored_archive; GistEdit "abc123" "work.zip.base64" "UEsDBA=="]
              stored_view
              (GistFile false ("UEsDBA==" +:+ String "010" "") "" 9)
              (Dir [("notes.txt", File "n")]) None)
    as (_ & home' & keychain' & Hrestore & Hfiles).
  - vm_compute. reflexivity.
  - reflexivity.
  - by exists "cfg".
  - by exists "{}".
  - reflexivity.
  - reflexivity.
  - reflexivity.
  - by exists "abc123".
  - vm_compute. reflexivity.
  - vm_compute. reflexivity.
  - vm_compute. reflexivity.
  - reflexivity.
  - intros i Hi. apply backup_paths_cases in Hi as [-> | [-> | ->]]; reflexivity.
  - exists home'. split.
    + rewrite Hrestore. f_equal.
      assert (Hk : (@restoreProfile table_codec text_json echo_http "work" "linux"
                      (Dir [("notes.txt", File "n")]) None stored_view).2 = None)
        by (vm_compute; reflexivity).
      rewrite Hrestore in Hk. done.
    + split.
      * apply (Hfiles (BackupPath "~/.claude" ".claude") ["settings.json"] "theirs");
          [left | reflexivity].
      * apply (Hfiles (BackupPath "~/.claude.json" ".claude.json") [] "cfg");
          [right; left | reflexivity].
Defined.

(** ** 14. Strings: trimming, splitting, file names *)

Lemma trimStart_blank s :
  trimStart s = "" ↔ forallb is_space (list_ascii_of_string s) = true.
Proof.
  induction s as [|c s IH]; simpl; [done|].
  destruct (is_space c); simpl; [done|]. split; done.
Qed.

Lemma trimStart_starts_clean s : starts_clean (trimStart s) = true.
Proof.
  induction s as [|c s IH]; simpl; [done|].
  destruct (is_space c) eqn:E; [done|]. simpl. by rewrite E.
Qed.

Lemma trimEnd_blank s : starts_clean s = true → trimEnd s = "" → s = "".
Proof.
  destruct s as [|c s]; [done|]. simpl. intros Hc.
  destruct (trimEnd s); [|done]. by destruct (is_space c).
Qed.

Lemma trim_blank s :
  is_empty (trim s) = forallb is_space (list_ascii_of_string s).
Proof.
  unfold trim. destruct (forallb is_space (list_ascii_of_string s)) eqn:E.
  - apply trimStart_blank in E. by rewrite E.
  - destruct (trimEnd (trimStart s)) eqn:Ht; [|done].
    apply trimEnd_blank in Ht; [|apply trimStart_starts_clean].
    apply trimStart_blank in Ht. congruence.
Qed.



Lemma append_nil (t : string) : "" +:+ t = t.
Proof. reflexivity. Qed.

Lemma append_cons (c : ascii) (s t : string) :
  String c s +:+ t = String c (s +:+ t).
Proof. reflexivity. Qed.

Ltac ssimpl := rewrite ?append_nil, ?append_cons in *; simpl in *.

Lemma trimStart_clean s : starts_clean s = true → trimStart s = s.
Proof. destruct s as [|c s]; simpl; [done|]. by destruct (is_space c). Qed.

Lemma trimEnd_clean s : ends_clean s = true → trimEnd s = s.
Proof.
  induction s as [|c s IH]; [done|]. simpl.
  destruct s as [|c' s].
  - simpl. by destruct (is_space c).
  - intros Hc. rewrite (IH Hc). done.
Qed.

Lemma trimEnd_snoc_space s c :
  is_space c = true → trimEnd (s +:+ String c "") = trimEnd s.
Proof.
  intros Hc. induction s as [|x s IH]; ssimpl.
  - by rewrite Hc.
  - by rewrite IH.
Qed.

Lemma ends_clean_app s t : t ≠ "" → ends_clean (s +:+ t) = ends_clean t.
Proof.
  intros Ht. induction s as [|c s IH]; [done|]. rewrite append_cons. simpl.
  destruct (s +:+ t) eqn:E; [|done].
  destruct s; ssimpl; [congruence | done].
Qed.

Lemma split_on_lacks c s : lacks c s = true → split_on c s = [s].
Proof.
  unfold lacks. induction s as [|x s IH]; simpl; [done|].
  intros [Hx Hs]%andb_prop. apply negb_true_iff in Hx. rewrite Hx.
  by rewrite (IH Hs).
Qed.

Lemma split_on_app c s t :
  lacks c s = true → split_on c (s +:+ String c t) = s :: split_on c t.
Proof.
  unfold lacks. induction s as [|x s IH]; ssimpl.
  - by rewrite Ascii.eqb_refl.
  - intros [Hx Hs]%andb_prop. apply negb_true_iff in Hx. rewrite Hx.
    by rewrite (IH Hs).
Qed.

Lemma split_on_concat c (l : list string) :
  l ≠ [] → Forall (λ s, lacks c s = true) l →
  split_on c (String.concat (String c "") l) = l.
Proof.
  induction l as [|s l IH]; [done|]. intros _ Hall.
  apply Forall_cons in Hall as [Hs Hl]. destruct l as [|s' l].
  - simpl. by apply split_on_lacks.
  - change (String.concat (String c "") (s :: s' :: l))
      with (s +:+ String c (String.concat (String c "") (s' :: l))).
    rewrite split_on_app by done. f_equal. by apply IH.
Qed.

Lemma endsWith_app s suffix : endsWith (s +:+ suffix) suffix = true.
Proof.
  induction s as [|c s IH]; ssimpl.
  - destruct suffix; simpl; [done|]. by rewrite Ascii.eqb_refl, String.eqb_refl.
  - by rewrite IH, orb_true_r.
Qed.

Lemma string_drop_app s t : string_drop (String.length s) (s +:+ t) = t.
Proof. induction s as [|c s IH]; ssimpl; [by destruct t | done]. Qed.

Lemma prefix_app s t : String.prefix s (s +:+ t) = true.
Proof.
  induction s as [|c s IH]; ssimpl; [by destruct t|].
  destruct (ascii_dec c c); [done | congruence].
Qed.

Lemma remove_first_app c pat s :
  lacks c s = true →
  remove_first (String c pat) (s +:+ String c pat) = s.
Proof.
  unfold lacks. induction s as [|x s IH]; intros Hs.
  - rewrite append_nil.
    pose proof (prefix_app (String c pat) "") as Hp.
    pose proof (string_drop_app (String c pat) "") as Hd.
    assert (Heq : String c pat +:+ "" = String c pat).
    { clear. generalize (String c pat). intros u.
      induction u as [|a u IHu]; [done|]. by rewrite append_cons, IHu. }
    rewrite Heq in Hp, Hd. unfold remove_first. by rewrite Hp, Hd.
  - simpl in Hs. apply andb_prop in Hs as [Hx Hs]. apply negb_true_iff in Hx.
    rewrite append_cons. simpl. destruct (ascii_dec c x) as [->|Hne].
    + by rewrite Ascii.eqb_refl in Hx.
    + by rewrite (IH Hs).
Qed.

Lemma profile_name_lacks c n :
  profile_char c = false → PROFILE_NAME_REGEX_test n = true → lacks c n = true.
Proof.
  intros Hc [_ Hall]%andb_prop. unfold lacks.
  rewrite forallb_forall in Hall. apply forallb_forall. intros x Hx.
  apply negb_true_iff. destruct (Ascii.eqb x c) eqn:E; [|done].
  apply Ascii.eqb_eq in E as ->. rewrite (Hall c Hx) in Hc. done.
Qed.

Lemma profile_char_not_space c : profile_char c = true → is_space c = false.
Proof.
  destruct c as [[|] [|] [|] [|] [|] [|] [|] [|]]; vm_compute; congruence.
Qed.

Lemma lacks_app c s t : lacks c (s +:+ t) = lacks c s && lacks c t.
Proof.
  unfold lacks. induction s as [|x s IH]; ssimpl; [done|].
  by rewrite IH, andb_assoc.
Qed.

Lemma starts_clean_app s t : s ≠ "" → starts_clean (s +:+ t) = starts_clean s.
Proof. by destruct s. Qed.

(** A line of a listing: not empty, no line break inside, no white space
    at either end. *)
Lemma profile_file_line n :
  PROFILE_NAME_REGEX_test n = true →
  profile_file n ≠ "" ∧ lacks newline (profile_file n) = true ∧
  starts_clean (profile_file n) = true ∧ ends_clean (profile_file n) = true.
Proof.
  intros Hn. unfold profile_file.
  assert (Hne : n ≠ "") by (intros ->; done).
  split; [destruct n; [done|]; by rewrite append_cons|].
  split; [rewrite lacks_app, (profile_name_lacks newline n) by done; done|].
  split.
  - rewrite starts_clean_app by done. destruct n as [|c n]; [done|].
    apply andb_prop in Hn as [_ Hall]. simpl in Hall.
    apply andb_prop in Hall as [Hc _]. simpl.
    by rewrite (profile_char_not_space c Hc).
  - by rewrite ends_clean_app.
Qed.

Lemma concat_lines_clean (sep : ascii) (l : list string) :
  l ≠ [] →
  Forall (λ s, s ≠ "" ∧ starts_clean s = true ∧ ends_clean s = true) l →
  String.concat (String sep "") l ≠ "" ∧
  starts_clean (String.concat (String sep "") l) = true ∧
  ends_clean (String.concat (String sep "") l) = true.
Proof.
  induction l as [|s l IH]; [done|]. intros _ Hall.
  apply Forall_cons in Hall as [(Hne & Hs & He) Hl]. destruct l as [|s' l].
  - done.
  - change (String.concat (String sep "") (s :: s' :: l))
      with (s +:+ String sep (String.concat (String sep "") (s' :: l))).
    destruct (IH ltac:(done) Hl) as (Hne' & _ & He').
    split; [destruct s; [done|]; by rewrite append_cons|].
    split; [by rewrite starts_clean_app|].
    rewrite ends_clean_app by done.
    destruct (String.concat (String sep "") (s' :: l)) eqn:E; [done|]. exact He'.
Qed.

Lemma trim_listing (l : list string) :
  l ≠ [] →
  Forall (λ s, s ≠ "" ∧ starts_clean s = true ∧ ends_clean s = true) l →
  trim (String.concat (String newline "") l +:+ String newline "") =
  String.concat (String newline "") l.
Proof.
  intros Hl Hall. destruct (concat_lines_clean newline l Hl Hall) as (Hne & Hs & He).
  unfold trim. rewrite trimStart_clean by (by rewrite starts_clean_app).
  rewrite trimEnd_snoc_space by done. by apply trimEnd_clean.
Qed.

Lemma gist_listing_lines before after :
  Forall (λ n, PROFILE_NAME_REGEX_test n = true) before →
  Forall (λ n, PROFILE_NAME_REGEX_test n = true) after →
  split_on newline (trim (gist_listing before after)) =
  map profile_file before ++ "claude-profiles-readme.md" :: map profile_file after.
Proof.
  intros Hb Ha. unfold gist_listing.
  set (lines := map profile_file before ++
                "claude-profiles-readme.md" :: map profile_file after).
  assert (Hok : Forall (λ s, (s ≠ "" ∧ starts_clean s = true ∧ ends_clean s = true) ∧
                             lacks newline s = true) lines).
  { apply Forall_app. split; [|apply Forall_cons; split; [done|]];
      apply Forall_fmap; eapply Forall_impl; eauto;
      intros n Hn; simpl; destruct (profile_file_line n Hn) as (?&?&?&?); done. }
  assert (Hne : lines ≠ []) by (subst lines; by destruct (map profile_file before)).
  rewrite trim_listing; [|done|by eapply Forall_impl; [exact Hok|]; intros ? [? ?]].
  apply split_on_concat; [done|]. eapply Forall_impl; [exact Hok|]. by intros ? [? ?].
Qed.

Lemma filter_profile_files (names : list string) :
  List.filter (λ f, endsWith f ".zip.base64") (map profile_file names) =
  map profile_file names.
Proof.
  induction names as [|n names IH]; [done|]. simpl.
  unfold profile_file at 1. by rewrite endsWith_app, IH.
Qed.

Lemma remove_suffix_profile_files (names : list string) :
  Forall (λ n, PROFILE_NAME_REGEX_test n = true) names →
  map (remove_first ".zip.base64") (map profile_file names) = names.
Proof.
  induction names as [|n names IH]; [done|]. intros [Hn Hns]%Forall_cons.
  simpl. rewrite (IH Hns). f_equal.
  apply (remove_first_app "." "zip.base64" n). by apply profile_name_lacks.
Qed.

Lemma list_listing_eq (before after : list string) :
  Forall (λ n, PROFILE_NAME_REGEX_test n = true) before →
  Forall (λ n, PROFILE_NAME_REGEX_test n = true) after →
  listProfiles (gist_listing before after) = before ++ after.
Proof.
  intros Hb Ha. unfold listProfiles. rewrite gist_listing_lines by done.
  rewrite List.filter_app. simpl.
  rewrite !filter_profile_files, <- map_app, remove_suffix_profile_files; [done|].
  by apply Forall_app.
Qed.

(** [listProfiles] prints exactly the stored profiles, in the order of the
    listing: the read-me of the gist is left out and every file name is
    turned back into the profile name it was made from. *)
Theorem list_shows_the_stored_profiles (before after : list string) :
  Forall (λ n, PROFILE_NAME_REGEX_test n = true) before →
  Forall (λ n, PROFILE_NAME_REGEX_test n = true) after →
  listProfiles (gist_listing before after) = before ++ after.
Proof.
  intros Hb Ha. unfold listProfiles. rewrite gist_listing_lines by done.
  rewrite List.filter_app. simpl.
  rewrite !filter_profile_files, <- map_app, remove_suffix_profile_files; [done|].
  by apply Forall_app.
Qed.

Lemma list_shows_the_stored_profiles_witness :
  listProfiles (gist_listing ["a-team"] ["work"; "x1"]) = ["a-team"; "work"; "x1"].
Proof.
  apply (list_shows_the_stored_profiles ["a-team"] ["work"; "x1"]);
    repeat constructor.
Defined.

Lemma length_append s t :
  String.length (s +:+ t) = String.length s + String.length t.
Proof. induction s as [|c s IH]; ssimpl; [done | by rewrite IH]. Qed.

Lemma profile_file_inj n m : profile_file n = profile_file m → n = m.
Proof.
  unfold profile_file. revert m.
  induction n as [|c n IH]; intros m Heq.
  - destruct m as [|c m]; [done|]. exfalso.
    apply (f_equal String.length) in Heq.
    rewrite !length_append in Heq. simpl in Heq. lia.
  - destruct m as [|c' m].
    + exfalso. apply (f_equal String.length) in Heq.
      rewrite !length_append in Heq. simpl in Heq. lia.
    + rewrite !append_cons in Heq. injection Heq as -> Heq. f_equal. by apply IH.
Qed.

Lemma existsb_profile_file n names :
  existsb (String.eqb (profile_file n)) (map profile_file names) =
  bool_decide (n ∈ names).
Proof.
  induction names as [|m names IH]; [done|]. simpl. rewrite IH.
  destruct (String.eqb (profile_file n) (profile_file m)) eqn:E.
  - apply String.eqb_eq, profile_file_inj in E as ->. simpl.
    symmetry. apply bool_decide_eq_true. left.
  - simpl. apply String.eqb_neq in E.
    apply bool_decide_ext. rewrite elem_of_cons. split; [by right|].
    intros [->|?]; [done|done].
Qed.

Lemma profile_file_not_readme n :
  String.eqb (profile_file n) "claude-profiles-readme.md" = false.
Proof.
  apply String.eqb_neq. intros Heq.
  assert (He : endsWith (profile_file n) ".zip.base64" = true) by apply endsWith_app.
  rewrite Heq in He. done.
Qed.

(** [deleteProfile] sends its [PATCH] for exactly the profiles that
    [listProfiles] shows for the same listing: a valid name is deleted
    (one [PATCH] naming its file, nothing else) when it is listed, and
    refused as not found, with no remote write, when it is not. *)
Theorem delete_accepts_exactly_the_listed_profiles
    (profileName id : string) (before after : list string)
    (updateResult : cmd_result) :
  PROFILE_NAME_REGEX_test profileName = true →
  Forall (λ n, PROFILE_NAME_REGEX_test n = true) before →
  Forall (λ n, PROFILE_NAME_REGEX_test n = true) after →
  deleteProfile profileName (Some id) (gist_listing before after) updateResult =
  if bool_decide (profileName ∈ listProfiles (gist_listing before after))
  then (if (code updateResult =? 0)%Z then Deleted else DeleteFailed,
        [PatchNull id (profile_file profileName)])
  else (DeleteRefused ProfileNotFound, []).
Proof.
  intros Hname Hb Ha. rewrite list_listing_eq by done.
  unfold deleteProfile. rewrite Hname. cbn [negb].
  rewrite gist_listing_lines by done.
  assert (Hfilter :
    List.filter (λ f, negb (is_empty f))
      (map profile_file before ++ "claude-profiles-readme.md" :: map profile_file after)
    = map profile_file before ++ "claude-profiles-readme.md" :: map profile_file after).
  { apply forallb_filter_id. apply forallb_forall. intros f Hf.
    apply in_app_or in Hf as [Hf|[<-|Hf]]; [|done|];
      apply in_map_iff in Hf as (n & <- & Hn);
      unfold profile_file; destruct n; [done|by rewrite append_cons|done|by rewrite append_cons];
      done. }
  rewrite Hfilter, existsb_app. simpl.
  rewrite profile_file_not_readme, !existsb_profile_file. simpl.
  rewrite (bool_decide_ext _ _ (elem_of_app before after profileName)).
  rewrite bool_decide_or.
  destruct (bool_decide (profileName ∈ before) || bool_decide (profileName ∈ after));
    simpl; [|done].
  by destruct (code updateResult =? 0)%Z.
Qed.

Lemma delete_accepts_witness :
  deleteProfile "work" (Some "abc123") (gist_listing ["a-team"] ["work"])
    (CmdResult 0 "") = (Deleted, [PatchNull "abc123" "work.zip.base64"]) ∧
  deleteProfile "wor" (Some "abc123") (gist_listing ["a-team"] ["work"])
    (CmdResult 0 "") = (DeleteRefused ProfileNotFound, []).
Proof.
  split.
  - rewrite (delete_accepts_exactly_the_listed_profiles "work" "abc123"
               ["a-team"] ["work"] (CmdResult 0 "") eq_refl);
      [reflexivity | repeat constructor..].
  - rewrite (delete_accepts_exactly_the_listed_profiles "wor" "abc123"
               ["a-team"] ["work"] (CmdResult 0 "") eq_refl);
      [reflexivity | repeat constructor..].
Defined.

(** ** 15. Fingerprint: what it does and does not see *)

Lemma hash_item_agree readdir h1 h2 item :
  (∀ q, stat h1 (expandHome (source item) ++ q) = stat h2 (expandHome (source item) ++ q)) →
  hash_item readdir h1 item = hash_item readdir h2 item.
Proof.
  intros Hq. unfold hash_item, readFile.
  pose proof (Hq []) as H0. rewrite !app_nil_r in H0. rewrite H0.
  destruct (stat h2 (expandHome (source item))) as [[d|es]|]; [done| |done].
  f_equal. induction (js_sort (readdir (expandHome (source item)))) as [|f fs IH];
    [done|].
  csimpl. unfold readFile in IH. by rewrite Hq, IH.
Qed.

(** The fingerprint reads nothing outside the three watched paths: two
    home directories that agree on everything at and below [~/.claude],
    [~/.claude.json] and [~/.claude.json.backup] have the same
    fingerprint, whatever else they hold. *)
Theorem fingerprint_reads_only_watched_paths `{Crypto, Json}
    (readdir : path → list string) (platform : string) (h1 h2 : node)
    (keychain : option json) :
  (∀ item q, item ∈ BACKUP_PATHS →
     stat h1 (expandHome (source item) ++ q) = stat h2 (expandHome (source item) ++ q)) →
  calculateFilesHash readdir platform h1 keychain =
  calculateFilesHash readdir platform h2 keychain.
Proof.
  intros Hagree. unfold calculateFilesHash. do 3 f_equal.
  assert (Hall : ∀ item, In item BACKUP_PATHS →
            hash_item readdir h1 item = hash_item readdir h2 item).
  { intros item Hin. apply hash_item_agree. intros q. apply Hagree.
    by apply list_elem_of_In. }
  clear Hagree. induction BACKUP_PATHS as [|item items IH]; [done|].
  simpl. rewrite (Hall item) by (by left). f_equal. apply IH.
  intros i Hi. apply Hall. by right.
Qed.

Lemma fingerprint_reads_only_witness :
  let ls := λ _ : path, ["settings.json"; "projects/a.jsonl"; "projects"] in
  @calculateFilesHash id_crypto text_json ls "linux" sample_home None =
  @calculateFilesHash id_crypto text_json ls "linux"
    (Dir [ (".ssh", Dir [("id_ed25519", File "key")]);
           (".claude", Dir [ ("settings.json", File "{}");
                             ("projects", Dir [("a.jsonl", File "x")]) ]);
           (".claude.json", File "cfg") ]) None.
Proof.
  intros ls.
  apply (@fingerprint_reads_only_watched_paths id_crypto text_json ls "linux").
  intros item q Hitem.
  apply backup_paths_cases in Hitem as [-> | [-> | ->]]; reflexivity.
Defined.

Lemma append_assoc (a b c : string) : (a +:+ b) +:+ c = a +:+ (b +:+ c).
Proof. induction a as [|x a IH]; ssimpl; [done | by rewrite IH]. Qed.

(** The fingerprint sees the bytes of the files one after the other, with
    nothing in between: where [~/.claude] does not exist, two states whose
    [~/.claude.json] followed by [~/.claude.json.backup] give the same
    byte sequence have the same fingerprint, also when the bytes are
    divided differently between the two files. *)
Theorem fingerprint_sees_only_the_concatenation `{Crypto, Json}
    (readdir : path → list string) (platform : string) (h1 h2 : node)
    (keychain : option json) (a1 b1 a2 b2 : string) :
  stat h1 [".claude"] = None → stat h2 [".claude"] = None →
  stat h1 [".claude.json"] = Some (File a1) →
  stat h1 [".claude.json.backup"] = Some (File b1) →
  stat h2 [".claude.json"] = Some (File a2) →
  stat h2 [".claude.json.backup"] = Some (File b2) →
  a1 +:+ b1 = a2 +:+ b2 →
  calculateFilesHash readdir platform h1 keychain =
  calculateFilesHash readdir platform h2 keychain.
Proof.
  intros Hc1 Hc2 Ha1 Hb1 Ha2 Hb2 Heq. unfold calculateFilesHash. f_equal.
  unfold BACKUP_PATHS. cbn [flat_map]. unfold hash_item. cbn [source].
  change (expandHome "~/.claude") with [".claude"].
  change (expandHome "~/.claude.json") with [".claude.json"].
  change (expandHome "~/.claude.json.backup") with [".claude.json.backup"].
  rewrite Hc1, Hc2, Ha1, Hb1, Ha2, Hb2. cbn [app].
  set (k := hash_keychain platform keychain).
  change (String.concat "" (a1 :: b1 :: k)) with
    (match b1 :: k with [] => a1 | _ => a1 +:+ "" +:+ String.concat "" (b1 :: k) end).
  change (String.concat "" (a2 :: b2 :: k)) with
    (match b2 :: k with [] => a2 | _ => a2 +:+ "" +:+ String.concat "" (b2 :: k) end).
  cbn [String.concat]. rewrite !append_nil.
  destruct k as [|x k]; [done|].
  by rewrite <- !append_assoc, Heq.
Qed.

Lemma fingerprint_concatenation_witness :
  @calculateFilesHash id_crypto text_json (λ _, []) "linux"
    (Dir [(".claude.json", File "{}"); (".claude.json.backup", File "[1,2]")]) None =
  @calculateFilesHash id_crypto text_json (λ _, []) "linux"
    (Dir [(".claude.json", File "{}["); (".claude.json.backup", File "1,2]")]) None.
Proof.
  apply (@fingerprint_sees_only_the_concatenation id_crypto text_json (λ _, []) "linux"
           _ _ None "{}" "[1,2]" "{}[" "1,2]"); reflexivity.
Defined.


(** ** 16. The two verifications of a stored profile, and the command line *)

Lemma verify_download_eq `{Codec, Http} view profileName :
  verify_download view profileName = restore_download view profileName.
Proof. reflexivity. Qed.

Lemma fold_profile_check_fst dir cks acc :
  fst (fold_left (profile_check dir) cks acc) =
  fst acc &&
  forallb (λ ck, negb (c_essential ck) ||
                 match stat dir (components (c_path ck)) with
                 | Some (File _) => true
                 | Some (Dir _) => c_isDirectory ck
                 | None => false
                 end) cks.
Proof.
  revert acc. induction cks as [|ck cks IH]; intros [b found]; simpl.
  - by rewrite andb_true_r.
  - rewrite IH. rewrite andb_assoc. f_equal.
    unfold profile_check. simpl.
    destruct (stat dir (components (c_path ck))) as [[d|es]|],
      (c_isDirectory ck), (c_essential ck), b; reflexivity.
Qed.

Lemma verdicts_agree platform dir :
  isMacOS platform = false →
  valid (verify_extracted platform dir) = fst (verifyProfile_checks dir).
Proof.
  intros Hmac. unfold verify_extracted, verifyProfile_checks.
  rewrite fold_downloaded_check, fold_profile_check_fst.
  unfold downloaded_checks, profile_checks, check_ok. rewrite Hmac.
  cbn [forallb valid fst andb orb negb c_essential c_isDirectory c_path].
  destruct (stat dir (components ".claude/.credentials.json")) as [[?|?]|],
    (stat dir (components ".claude.json")) as [[?|?]|]; reflexivity.
Qed.

(** Off macOS the standalone verification predicts the restore: for one
    and the same answer of the gist, [verifyProfile] ends with the verdict
    "valid and ready to restore" exactly when [restoreProfile], on any
    local state, gets through its download and its verification and
    completes. *)
Theorem verify_predicts_restore_off_macos `{Codec, Json, Http}
    (profileName platform : string) (view : gist_view)
    (home : node) (keychain : option json) :
  isMacOS platform = false →
  (∃ foundFiles, verifyProfile profileName view = Verified true foundFiles) ↔
  (∃ home' keychain',
     restoreProfile profileName platform home keychain view =
       (Completed, home', keychain')).
Proof.
  intros Hmac. unfold verifyProfile, restoreProfile.
  destruct (negb (PROFILE_NAME_REGEX_test profileName));
    [split; [intros [? ?] | intros (? & ? & ?)]; done|].
  destruct (view_id view) as [id|];
    [|split; [intros [? ?] | intros (? & ? & ?)]; done].
  rewrite verify_download_eq.
  destruct (restore_download view profileName) as [f|zipBuffer];
    [split; [intros [? ?] | intros (? & ? & ?)]; done|].
  unfold verifyDownloadedProfile.
  destruct (zip_read zipBuffer) as [a|] eqn:Hzip; simpl;
    [|split; [intros [? ?] | intros (? & ? & ?)]; done].
  rewrite (verdicts_agree platform _ Hmac).
  destruct (fst (verifyProfile_checks (unzip_entries a (Dir [])))); simpl.
  - split; eauto.
  - split; [intros [? ?] | intros (? & ? & ?)]; done.
Qed.

Lemma verify_predicts_restore_witness :
  ∃ home' keychain',
    @restoreProfile table_codec text_json echo_http "work" "linux"
      (Dir []) None stored_view = (Completed, home', keychain').
Proof.
  apply (@verify_predicts_restore_off_macos table_codec text_json echo_http
           "work" "linux" stored_view (Dir []) None eq_refl).
  eexists. vm_compute. reflexivity.
Defined.

(** A verification that refuses says why: when [verifyLocalFiles] or
    [verifyDownloadedProfile] is not valid it carries at least one issue,
    and [verifyDownloadedProfile] carries none when it is valid. *)
Theorem refusing_verification_names_an_issue `{Codec, Json}
    (platform : string) (home : node) (keychain : option json) (zip : blob) :
  (valid (verifyLocalFiles platform home keychain) = false →
   issues (verifyLocalFiles platform home keychain) ≠ []) ∧
  (valid (verifyDownloadedProfile platform zip) = false ↔
   issues (verifyDownloadedProfile platform zip) ≠ []).
Proof.
  split.
  - unfold verifyLocalFiles.
    set (hk := isMacOS platform && bool_decide (is_Some keychain)).
    assert (Hstep : ∀ cks v,
      (valid v = false → issues v ≠ []) →
      valid (fold_left (local_check home hk) cks v) = false →
      issues (fold_left (local_check home hk) cks v) ≠ []).
    { induction cks as [|ck cks IH]; intros v Hv; [exact Hv|].
      simpl. apply IH. unfold local_check.
      destruct (c_skipIfKeychainExists ck && hk); [exact Hv|].
      destruct (stat home (expandHome (c_path ck))) as [[content|es]|]; try exact Hv.
      - destruct (includes (c_path ck) ".credentials.json"); [|exact Hv].
        destruct (credentials_incomplete content) as [[|]|]; try exact Hv;
          simpl; intros _ Hnil; by apply app_eq_nil in Hnil as [_ ?].
      - destruct (c_essential ck); [|exact Hv].
        simpl. intros _ Hnil. by apply app_eq_nil in Hnil as [_ ?]. }
    apply Hstep. done.
  - unfold verifyDownloadedProfile. destruct (zip_read zip) as [a|]; [|done].
    unfold verify_extracted. rewrite fold_downloaded_check.
    cbn [valid issues andb app].
    induction (downloaded_checks platform) as [|ck cks IH]; [done|].
    simpl. destruct (check_ok (unzip_entries a (Dir [])) ck); simpl; [exact IH|].
    done.
Qed.

Lemma refusing_verification_witness :
  issues (@verifyLocalFiles text_json "linux" (Dir []) None) ≠ [] ∧
  issues (@verifyDownloadedProfile plain_codec "linux" None) ≠ [].
Proof.
  destruct (@refusing_verification_names_an_issue plain_codec text_json
              "linux" (Dir []) None None) as [Hlocal Hdown].
  split; [apply Hlocal | apply Hdown]; reflexivity.
Defined.

Lemma requested_cases (a : argv) :
  length (List.filter Boolean
            [argv_list a; argv_store a; argv_restore a; argv_delete a;
             argv_verify a; argv_watch a]) = length (requested a).
Proof.
  unfold requested. cbn [List.filter].
  destruct (Boolean (argv_list a)), (Boolean (argv_store a)),
    (Boolean (argv_restore a)), (Boolean (argv_delete a)),
    (Boolean (argv_verify a)), (Boolean (argv_watch a)); reflexivity.
Qed.

(** The command line runs the one operation that was asked for: the check
    of the arguments passes exactly when one main option was given a
    value that is not empty, the main function then calls that operation
    with that value and no other, and an operation that takes a profile
    name is never called with an empty one.  (Without the check an option
    given before another on the [if] chain would win silently.) *)
Theorem command_line_runs_the_one_requested_operation (a : argv) :
  (check_argv a = None ↔ ∃ act, requested a = [act]) ∧
  (∀ act, requested a = [act] →
     dispatch a = Some act ∧
     ∀ v, action_argument act = Some v → Boolean v = true).
Proof.
  split.
  - unfold check_argv. rewrite requested_cases.
    destruct (requested a) as [|act [|act' l]]; simpl.
    + split; [done | by intros [? ?]].
    + split; eauto.
    + split; [done | by intros [? ?]].
  - intros act. unfold requested, dispatch.
    destruct (Boolean (argv_list a)) eqn:Hl, (Boolean (argv_store a)) eqn:Hs,
      (Boolean (argv_restore a)) eqn:Hr, (Boolean (argv_delete a)) eqn:Hd,
      (Boolean (argv_verify a)) eqn:Hv, (Boolean (argv_watch a)) eqn:Hw;
      simpl; intros Hreq; try discriminate Hreq;
      injection Hreq as <-; (split; [reflexivity|]);
      simpl; intros v Hv'; try discriminate Hv'; by injection Hv' as <-.
Qed.

Lemma command_line_witness :
  let a := Argv Undefined (Text "work") Undefined Undefined Undefined Undefined in
  let b := Argv Undefined (Text "") Undefined Undefined Undefined Undefined in
  dispatch a = Some (RunStore (Text "work")) ∧ check_argv a = None ∧
  check_argv b = Some NoMainOption.
Proof.
  intros a b.
  destruct (command_line_runs_the_one_requested_operation a) as [Hcheck Hrun].
  split; [|split].
  - apply (Hrun (RunStore (Text "work"))). reflexivity.
  - apply Hcheck. eexists. reflexivity.
  - reflexivity.
Defined.


(** ** 17. The gist scope in the output of [gh auth status] *)

Lemma prefix_app_long p x y :
  (String.length p <= String.length x)%nat →
  String.prefix p (x +:+ y) = String.prefix p x.
Proof.
  revert x. induction p as [|a p IH]; intros x Hlen.
  - by destruct x, y.
  - destruct x as [|b x]; [simpl in Hlen; lia|]. ssimpl.
    destruct (ascii_dec a b); [|done]. apply IH. lia.
Qed.

Lemma includes_false_prefix hay needle :
  includes hay needle = false → String.prefix needle hay = false.
Proof. destruct hay; simpl; by intros [? ?]%orb_false_elim. Qed.

Lemma regex_search_here {A} (at_start : string → option A) s r :
  at_start s = Some r → regex_search at_start s = Some r.
Proof. intros Hs. destruct s; simpl; by rewrite Hs. Qed.

Lemma append_assoc_snoc pre (c : ascii) tail :
  (pre +:+ "Token scopes") +:+ (":" +:+ tail) = pre +:+ ("Token scopes:" +:+ tail).
Proof. induction pre as [|x pre IH]; ssimpl; [done | by rewrite IH]. Qed.

Lemma search_skips {A} (k : string → option A) pre tail r :
  includes (pre +:+ "Token scopes") "Token scopes:" = false →
  k tail = Some r →
  regex_search (after_literal "Token scopes:" k)
    (pre +:+ ("Token scopes:" +:+ tail)) = Some r.
Proof.
  intros Hfirst Hk. induction pre as [|c pre IH].
  - rewrite append_nil. apply regex_search_here.
    unfold after_literal. by rewrite prefix_app, string_drop_app.
  - rewrite (append_cons c pre) in Hfirst. rewrite (append_cons c pre).
    cbn [includes] in Hfirst. apply orb_false_elim in Hfirst as [Hhere Hlater].
    cbn [regex_search]. unfold after_literal at 1.
    rewrite <- (append_assoc_snoc pre c tail), <- append_cons.
    rewrite prefix_app_long, Hhere.
    2:{ cbn [String.length]. rewrite length_append. simpl. lia. }
    rewrite (append_assoc_snoc pre c tail). by apply IH.
Qed.

Lemma span_app p s t :
  forallb p (list_ascii_of_string s) = true →
  match t with EmptyString => true | String c _ => negb (p c) end = true →
  span p (s +:+ t) = (s, t).
Proof.
  intros Hs Ht. induction s as [|c s IH]; ssimpl.
  - destruct t as [|c t]; [done|]. simpl. apply negb_true_iff in Ht. by rewrite Ht.
  - apply andb_prop in Hs as [Hc Hs]. rewrite Hc, (IH Hs). done.
Qed.

Lemma scope_chars s :
  is_scope s = true →
  s ≠ "" ∧ forallb not_quote (list_ascii_of_string s) = true ∧
  forallb line_char (list_ascii_of_string s) = true.
Proof.
  unfold is_scope. intros [Hne Hall]%andb_prop. split; [by destruct s|].
  clear Hne. induction s as [|c s IH]; [done|]. simpl in *.
  apply andb_prop in Hall as [Hc Hs]. destruct (IH Hs) as [-> ->].
  unfold scope_char in Hc. apply andb_prop in Hc as [[Hlo Hhi]%andb_prop ->].
  unfold line_char, is_line_terminator. split; [done|].
  apply Nat.ltb_lt in Hlo.
  destruct (Nat.eqb_spec (nat_of_ascii c) 10), (Nat.eqb_spec (nat_of_ascii c) 13);
    simpl; try lia; done.
Qed.

Lemma quoted_at_scope s t :
  is_scope s = true → quoted_at (in_quotes s +:+ t) = Some (s, t).
Proof.
  intros (Hne & Hq & _)%scope_chars. unfold in_quotes, quoted_at.
  rewrite !append_cons.
  replace ((s +:+ String quote "") +:+ t) with (s +:+ String quote t).
  2:{ clear. induction s as [|x s IH]; ssimpl; [done | by rewrite IH]. }
  rewrite Ascii.eqb_refl, (span_app not_quote s (String quote t) Hq) by done.
  by destruct s.
Qed.

Lemma scopes_text_cons s s' l :
  scopes_text (s :: s' :: l) = in_quotes s +:+ (", " +:+ scopes_text (s' :: l)).
Proof. reflexivity. Qed.

Lemma scopes_text_line scopes :
  Forall (λ s, is_scope s = true) scopes →
  forallb line_char (list_ascii_of_string (scopes_text scopes)) = true.
Proof.
  assert (Happ : ∀ a b, forallb line_char (list_ascii_of_string (a +:+ b)) =
            forallb line_char (list_ascii_of_string a) &&
            forallb line_char (list_ascii_of_string b)).
  { intros a b. induction a as [|x a IH]; ssimpl; [done|].
    by rewrite IH, andb_assoc. }
  assert (Hq : ∀ s, is_scope s = true →
            forallb line_char (list_ascii_of_string (in_quotes s)) = true).
  { intros s (_ & _ & Hl)%scope_chars. unfold in_quotes.
    rewrite append_cons. cbn [list_ascii_of_string forallb].
    rewrite Happ, Hl. reflexivity. }
  induction scopes as [|s [|s' l] IH]; intros Hall; [done| |].
  - apply Forall_cons in Hall as [Hs _]. by apply Hq.
  - apply Forall_cons in Hall as [Hs Hl]. rewrite scopes_text_cons, !Happ.
    rewrite (Hq s Hs), (IH Hl). reflexivity.
Qed.

Lemma append_nil_r (s : string) : s +:+ "" = s.
Proof. induction s as [|c s IH]; ssimpl; [done | by rewrite IH]. Qed.

Lemma quoted_all_done fuel : quoted_all fuel "" = [].
Proof. by destruct fuel. Qed.

Lemma quoted_all_scopes scopes fuel :
  Forall (λ s, is_scope s = true) scopes →
  (String.length (scopes_text scopes) < fuel)%nat →
  quoted_all fuel (scopes_text scopes) = map in_quotes scopes.
Proof.
  revert fuel. induction scopes as [|s [|s' l] IH]; intros fuel Hall Hfuel.
  - apply quoted_all_done.
  - apply Forall_cons in Hall as [Hs _].
    destruct fuel as [|fuel]; [lia|].
    replace (scopes_text [s]) with (in_quotes s +:+ "") by apply append_nil_r.
    cbn [quoted_all]. rewrite (quoted_at_scope s "" Hs).
    by rewrite quoted_all_done.
  - apply Forall_cons in Hall as [Hs Hl].
    rewrite scopes_text_cons in *. rewrite length_append in Hfuel.
    change (String.length (", " +:+ scopes_text (s' :: l)))
      with (S (S (String.length (scopes_text (s' :: l))))) in Hfuel.
    destruct fuel as [|[|[|fuel]]]; try lia.
    cbn [quoted_all]. rewrite (quoted_at_scope s _ Hs).
    cbn [map]. f_equal.
    change (", " +:+ scopes_text (s' :: l))
      with (String "," (String " " (scopes_text (s' :: l)))).
    cbn [quoted_at]. change (Ascii.eqb "," quote) with false.
    change (Ascii.eqb " " quote) with false. cbn iota.
    assert (Hlen : String.length (in_quotes s) = S (S (String.length s))).
    { unfold in_quotes. rewrite append_cons. cbn [String.length].
      rewrite length_append. simpl. lia. }
    apply IH; [done | lia].
Qed.

Lemma remove_quotes_in_quotes s :
  forallb not_quote (list_ascii_of_string s) = true →
  remove_quotes (in_quotes s) = s.
Proof.
  intros Hs. unfold in_quotes. rewrite append_cons. cbn [remove_quotes].
  rewrite Ascii.eqb_refl. induction s as [|c s IH]; ssimpl.
  - done.
  - apply andb_prop in Hs as [Hc Hs]. unfold not_quote in Hc.
    apply negb_true_iff in Hc. by rewrite Hc, (IH Hs).
Qed.

Lemma existsb_eqb_elem (x : string) (l : list string) :
  existsb (String.eqb x) l = bool_decide (x ∈ l).
Proof.
  destruct (existsb (String.eqb x) l) eqn:E; symmetry.
  - apply bool_decide_eq_true_2. apply existsb_exists in E as (y & Hin & Heq).
    apply String.eqb_eq in Heq as ->. by apply list_elem_of_In.
  - apply bool_decide_eq_false_2. intros Hin.
    assert (existsb (String.eqb x) l = true); [|congruence].
    apply existsb_exists. exists x. split; [by apply list_elem_of_In|].
    apply String.eqb_refl.
Qed.

Lemma scopes_text_starts s l t :
  ∃ u, scopes_text (s :: l) +:+ t = String quote u.
Proof.
  destruct l as [|s' l].
  - eexists. unfold scopes_text. simpl. unfold in_quotes.
    by rewrite !append_cons.
  - eexists. rewrite scopes_text_cons. unfold in_quotes.
    by rewrite !append_cons.
Qed.

(** [getDetailedAuthStatus] reads back the scopes [gh auth status] prints:
    when the first [Token scopes:] of the output is followed by a space
    and the scopes in quotes, separated by a comma and a space, to the end
    of the line, [scopes] is the list of these scopes and [hasGistScope]
    tells whether [gist] is one of them. *)
Theorem detailed_status_reads_back_the_scopes
    (pre rest : string) (scopes : list string) :
  scopes ≠ [] →
  Forall (λ s, is_scope s = true) scopes →
  includes (pre +:+ "Token scopes") "Token scopes:" = false →
  ends_line rest = true →
  detailed_scopes (auth_status_output pre scopes rest) =
    (scopes, bool_decide ("gist" ∈ scopes)).
Proof.
  intros Hne Hall Hfirst Hrest. unfold detailed_scopes, auth_status_output.
  unfold scopes_line_at.
  assert (Hline : spaces_then_line (" " +:+ (scopes_text scopes +:+ rest)) =
                  Some (scopes_text scopes)).
  { destruct scopes as [|s l]; [done|].
    destruct (scopes_text_starts s l rest) as [u Hu].
    rewrite append_cons, append_nil. cbn [spaces_then_line].
    change (is_space " ") with true. cbn iota.
    rewrite Hu. cbn [spaces_then_line].
    change (is_space quote) with false. change (is_line_terminator quote) with false.
    cbn iota. rewrite <- Hu.
    rewrite (span_app line_char (scopes_text (s :: l)) rest).
    - done.
    - by apply scopes_text_line.
    - unfold ends_line in Hrest. destruct rest; [done|].
      unfold line_char. by rewrite Hrest. }
  rewrite (search_skips _ pre _ _ Hfirst Hline). unfold match_all_quoted.
  rewrite quoted_all_scopes by (done || lia).
  assert (Hback : map remove_quotes (map in_quotes scopes) = scopes).
  { clear -Hall. induction Hall as [|s l Hs Hl IH]; [done|]. cbn [map].
    apply scope_chars in Hs as (_ & Hq & _).
    by rewrite (remove_quotes_in_quotes s Hq), IH. }
  destruct scopes as [|s l]; [done|].
  change (map in_quotes (s :: l)) with (in_quotes s :: map in_quotes l) in *.
  cbv iota. rewrite Hback. by rewrite existsb_eqb_elem.
Qed.

Lemma detailed_status_witness :
  detailed_scopes
    (auth_status_output "  - " ["delete_repo"; "gist"; "read:org"] (String newline "")) =
  (["delete_repo"; "gist"; "read:org"], true).
Proof.
  apply (detailed_status_reads_back_the_scopes "  - "
           (String newline "") ["delete_repo"; "gist"; "read:org"]).
  - discriminate.
  - repeat constructor.
  - reflexivity.
  - reflexivity.
Defined.

(** The warning of [checkGitHubAuth] looks at the first scope only: on
    such an output of a successful [gh auth status] it warns that the
    token has no gist scope exactly when the text [gist] does not occur in
    the first scope printed, whatever the scopes after it are. *)
Theorem auth_warning_looks_at_the_first_scope
    (pre rest : string) (scope : string) (others : list string) :
  Forall (λ s, is_scope s = true) (scope :: others) →
  includes (pre +:+ "Token scopes") "Token scopes:" = false →
  checkGitHubAuth (inl (CmdResult 0 (auth_status_output pre (scope :: others) rest))) =
    AuthOk (negb (includes scope "gist")).
Proof.
  intros Hall Hfirst. apply Forall_cons in Hall as [Hs _].
  unfold checkGitHubAuth, auth_status_output. cbn [code stdout].
  change (0 =? 0)%Z with true. cbv iota.
  unfold first_scope_at.
  assert (Hq : ∃ t, scopes_text (scope :: others) +:+ rest = in_quotes scope +:+ t).
  { destruct others as [|s' l].
    - by exists rest.
    - exists (", " +:+ (scopes_text (s' :: l) +:+ rest)).
      rewrite scopes_text_cons. generalize (scopes_text (s' :: l)). intros x.
      generalize (in_quotes scope). intros q. clear.
      induction q as [|c q IH]; ssimpl; [done | by rewrite IH]. }
  destruct Hq as [t Ht]. rewrite Ht.
  rewrite (search_skips _ pre _ scope Hfirst); [done|].
  rewrite append_cons, append_nil. cbn [trimStart].
  change (is_space " ") with true. cbv iota.
  assert (Hstart : trimStart (in_quotes scope +:+ t) = in_quotes scope +:+ t).
  { unfold in_quotes. by rewrite !append_cons. }
  by rewrite Hstart, (quoted_at_scope scope t Hs).
Qed.

Lemma auth_warning_witness :
  checkGitHubAuth
    (inl (CmdResult 0 (auth_status_output "  - " ["delete_repo"; "gist"] ""))) =
  AuthOk true.
Proof.
  apply (auth_warning_looks_at_the_first_scope "  - " "" "delete_repo" ["gist"]).
  - repeat constructor.
  - reflexivity.
Defined.


(** ** 18. The id of the gist *)

Lemma search_skips_literal {A} (lit0 : string) (last : ascii)
    (k : string → option A) pre tail r :
  includes (pre +:+ lit0) (lit0 +:+ String last "") = false →
  k tail = Some r →
  regex_search (after_literal (lit0 +:+ String last "") k)
    (pre +:+ ((lit0 +:+ String last "") +:+ tail)) = Some r.
Proof.
  intros Hfirst Hk. induction pre as [|c pre IH].
  - rewrite append_nil. apply regex_search_here.
    unfold after_literal. by rewrite prefix_app, string_drop_app.
  - rewrite (append_cons c pre) in Hfirst. rewrite (append_cons c pre).
    cbn [includes] in Hfirst. apply orb_false_elim in Hfirst as [Hhere Hlater].
    cbn [regex_search]. unfold after_literal at 1.
    assert (Hassoc : pre +:+ ((lit0 +:+ String last "") +:+ tail) =
                     (pre +:+ lit0) +:+ String last tail).
    { rewrite !append_assoc. by rewrite append_cons, append_nil. }
    rewrite Hassoc, <- append_cons.
    rewrite prefix_app_long, Hhere.
    2:{ cbn [String.length]. rewrite !length_append. simpl. lia. }
    rewrite <- Hassoc. by apply IH.
Qed.

Lemma segment_chars s :
  is_segment s = true →
  s ≠ "" ∧ lacks "/" s = true ∧
  forallb (λ c, negb (is_space c)) (list_ascii_of_string s) = true.
Proof.
  unfold is_segment, lacks. intros [Hne Hall]%andb_prop.
  split; [by destruct s|]. clear Hne.
  induction s as [|c s IH]; [done|]. simpl in *.
  apply andb_prop in Hall as [[Hsp Hsl]%andb_prop Hs].
  destruct (IH Hs) as [-> ->]. by rewrite Hsp, Hsl.
Qed.

Lemma forallb_string_app (p : ascii → bool) a b :
  forallb p (list_ascii_of_string (a +:+ b)) =
  forallb p (list_ascii_of_string a) && forallb p (list_ascii_of_string b).
Proof. induction a as [|x a IH]; ssimpl; [done | by rewrite IH, andb_assoc]. Qed.

Lemma no_space_ends_clean s :
  forallb (λ c, negb (is_space c)) (list_ascii_of_string s) = true →
  ends_clean s = true.
Proof.
  induction s as [|c s IH]; [done|]. simpl. intros [Hc Hs]%andb_prop.
  destruct s; [done | by apply IH].
Qed.

Lemma last_segment_gist_url user id :
  is_segment user = true → is_segment id = true →
  last_segment (gist_url user id) = id.
Proof.
  intros (_ & Hu & _)%segment_chars (_ & Hi & _)%segment_chars.
  unfold last_segment, gist_url.
  change ("https://gist.github.com/" +:+ (user +:+ String "/" id))
    with ("https:" +:+ String "/" ("" +:+ String "/"
            ("gist.github.com" +:+ String "/" (user +:+ String "/" id)))).
  rewrite !split_on_app by done. by rewrite split_on_lacks.
Qed.

Lemma includes_app pre needle tail :
  includes (pre +:+ (needle +:+ tail)) needle = true.
Proof.
  induction pre as [|c pre IH].
  - rewrite append_nil. pose proof (prefix_app needle tail) as Hp.
    destruct (needle +:+ tail); cbn [includes]; by rewrite Hp.
  - rewrite append_cons. cbn [includes]. by rewrite IH, orb_true_r.
Qed.

(** [findOrCreateGist] hands back the gist it created: when the query for
    an existing gist prints nothing but white space, the id it returns is
    the last part of the address [gh gist create] printed, be it alone on
    its line after a success, or the first address somewhere in the output
    of a run that ended with an error code. *)
Theorem created_gist_id_is_read_back
    (apiResult : cmd_result) (user id pre rest : string) (exitCode : Z) :
  forallb is_space (list_ascii_of_string (stdout apiResult)) = true →
  is_segment user = true →
  is_segment id = true →
  includes (pre +:+ "https://gist.github.com") "https://gist.github.com/" = false →
  match rest with EmptyString => true | String c _ => is_space c end = true →
  exitCode ≠ 0%Z →
  findOrCreateGist (inl apiResult)
    (inl (CmdResult 0 (gist_url user id +:+ String newline ""))) = Created id ∧
  findOrCreateGist (inl apiResult)
    (inl (CmdResult exitCode (pre +:+ (gist_url user id +:+ rest)))) = Created id.
Proof.
  intros Hblank Huser Hid Hfirst Hrest Hcode.
  pose proof (last_segment_gist_url user id Huser Hid) as Hlast.
  destruct (segment_chars _ Huser) as (Hune & _ & Husp).
  destruct (segment_chars _ Hid) as (Hine & _ & Hisp).
  assert (Hpath : forallb (λ c, negb (is_space c))
                    (list_ascii_of_string (user +:+ String "/" id)) = true).
  { rewrite forallb_string_app, Husp. simpl. by rewrite Hisp. }
  assert (Htrim : trim (gist_url user id +:+ String newline "") = gist_url user id).
  { unfold trim. rewrite trimStart_clean by done.
    rewrite trimEnd_snoc_space by done. apply trimEnd_clean.
    unfold gist_url. rewrite ends_clean_app by (by destruct user).
    by apply no_space_ends_clean. }
  assert (Hfound : regex_search gist_url_at (pre +:+ (gist_url user id +:+ rest)) =
                   Some (gist_url user id)).
  { unfold gist_url. rewrite append_assoc.
    apply (search_skips_literal "https://gist.github.com" "/" _ pre _ _ Hfirst).
    rewrite (span_app _ _ rest Hpath).
    - cbn [fst]. destruct (user +:+ String "/" id) eqn:E; [|done].
      by destruct user.
    - destruct rest; [done|]. by rewrite Hrest. }
  unfold findOrCreateGist. cbn [code stdout].
  rewrite trim_blank, Hblank. cbn [negb].
  split.
  - change (0 =? 0)%Z with true. cbn [negb]. by rewrite Htrim, Hlast.
  - apply Z.eqb_neq in Hcode. rewrite Hcode. cbn [negb].
    rewrite Hfound, Hlast.
    replace (pre +:+ (gist_url user id +:+ rest))
      with ((pre +:+ "https://") +:+ ("gist.github.com" +:+
             String "/" ((user +:+ String "/" id) +:+ rest))).
    + by rewrite includes_app.
    + rewrite (append_assoc pre "https://"). reflexivity.
Qed.

Lemma created_gist_id_witness :
  findOrCreateGist (inl (CmdResult 0 (String newline "")))
    (inl (CmdResult 0 (gist_url "octocat" "0a1b2c3d" +:+ String newline ""))) =
    Created "0a1b2c3d" ∧
  findOrCreateGist (inl (CmdResult 0 (String newline "")))
    (inl (CmdResult 1 ("Creating gist... " +:+
                       (gist_url "octocat" "0a1b2c3d" +:+ " (warning)")))) =
    Created "0a1b2c3d".
Proof.
  apply (created_gist_id_is_read_back (CmdResult 0 (String newline ""))
           "octocat" "0a1b2c3d" "Creating gist... " " (warning)" 1);
    (reflexivity || discriminate).
Defined.


(** ** 19. The format of the keychain entry *)

(** What [setKeychainCredentials] writes is in the format of the keychain
    whenever it recognises the credentials it is given, and it is stable:
    for credentials with a truthy [claudeAiOauth], [access_token] or
    [accessToken] the value written has a truthy member [claudeAiOauth],
    which after a conversion (no truthy [claudeAiOauth] was given) has a
    truthy [accessToken]; and the value written, given to
    [setKeychainCredentials] again, is written unchanged. *)
Theorem keychain_format_is_stable `{Truthy number}
    (credentials written : value number) :
  keychainData credentials = Some written →
  keychainData written = Some written ∧
  (recognised credentials = true →
   truthy (prop written "claudeAiOauth") = true ∧
   (truthy (prop credentials "claudeAiOauth") = false →
    truthy (prop (prop written "claudeAiOauth") "accessToken") = true)).
Proof.
  unfold recognised. intros Hw.
  destruct credentials as [| |b|n|s|items|members]; try discriminate Hw.
  1-4: injection Hw as <-; split; [reflexivity | intros Hr; discriminate Hr].
  unfold keychainData in Hw.
  destruct (truthy (prop (JObject members) "claudeAiOauth")) eqn:H1.
  { injection Hw as <-. split; [|done]. unfold keychainData. by rewrite H1. }
  destruct (truthy (prop (JObject members) "access_token")) eqn:H2.
  { injection Hw as <-. split; [reflexivity|]. intros _. split; [reflexivity|].
    intros _. exact H2. }
  destruct (truthy (prop (JObject members) "accessToken")) eqn:H3.
  { injection Hw as <-. split; [reflexivity|]. intros _. split; [reflexivity|].
    intros _. exact H3. }
  injection Hw as <-. split; [|intros Hr; discriminate Hr].
  unfold keychainData. by rewrite H1, H2, H3.
Qed.

Lemma keychain_format_witness :
  let old_format : value Z :=
    JObject [("access_token", JString "at"); ("refresh_token", JString "rt");
             ("expiry_date", JNumber 1700000000000%Z)] in
  ∃ written,
    keychainData old_format = Some written ∧
    keychainData written = Some written.
Proof.
  intros old_format. eexists. split; [reflexivity|].
  eapply (keychain_format_is_stable old_format). reflexivity.
Defined.


(** ** 20. Which profiles a restore finds *)

Lemma includes_later pre hay needle :
  includes hay needle = true → includes (pre +:+ hay) needle = true.
Proof.
  intros Hh. induction pre as [|c pre IH]; [done|].
  rewrite append_cons. cbn [includes]. by rewrite IH, orb_true_r.
Qed.

Lemma includes_concat (sep : string) (l : list string) (x t : string) :
  x ∈ l → includes (String.concat sep l +:+ t) x = true.
Proof.
  induction l as [|y l IH]; [by intros ?%elem_of_nil|].
  intros [-> | Hin]%elem_of_cons.
  - destruct l as [|y' l].
    + apply (includes_app "" y t).
    + change (String.concat sep (y :: y' :: l))
        with (y +:+ (sep +:+ String.concat sep (y' :: l))).
      rewrite append_assoc. apply (includes_app "" y).
  - destruct l as [|y' l]; [by apply elem_of_nil in Hin|].
    change (String.concat sep (y :: y' :: l))
      with (y +:+ (sep +:+ String.concat sep (y' :: l))).
    rewrite !append_assoc. do 2 apply includes_later. by apply IH.
Qed.

(** Restore and verify find exactly the stored profiles: on a gist whose
    listing and API response show the same profile files, the download
    ends with "not found" exactly for the names that are not stored; a
    stored profile is never reported missing. *)
Theorem download_finds_exactly_the_stored_profiles `{Codec, Http}
    (view : gist_view) (before after : list string) (profileName : string) :
  listing view = gist_listing before after →
  dom (files view) =
    list_to_set ("claude-profiles-readme.md" :: map profile_file (before ++ after)) →
  (restore_download view profileName = inl ProfileNotFound ↔
   profileName ∉ before ++ after) ∧
  (verify_download view profileName = inl ProfileNotFound ↔
   profileName ∉ before ++ after).
Proof.
  intros Hlisting Hdom.
  assert (Hfiles : ∀ n, is_Some (files view !! profile_file n) ↔ n ∈ before ++ after).
  { intros n. rewrite <- elem_of_dom, Hdom, elem_of_list_to_set, elem_of_cons.
    split.
    - intros [Heq | Hin].
      + pose proof (profile_file_not_readme n) as Hne.
        apply String.eqb_neq in Hne. done.
      + apply list_elem_of_fmap in Hin as (m & Heq & Hm).
        by apply profile_file_inj in Heq as ->.
    - intros Hin. right. by apply list_elem_of_fmap_2. }
  assert (Hr : restore_download view profileName = inl ProfileNotFound ↔
               profileName ∉ before ++ after).
  { unfold restore_download. fold (profile_file profileName).
    destruct (decide (profileName ∈ before ++ after)) as [Hin | Hout].
    - assert (Hinc : includes (listing view) (profile_file profileName) = true).
      { rewrite Hlisting. unfold gist_listing. apply includes_concat.
        apply elem_of_app in Hin as [Hin | Hin]; apply elem_of_app.
        + left. by apply list_elem_of_fmap_2.
        + right. apply elem_of_cons. right. by apply list_elem_of_fmap_2. }
      rewrite Hinc. cbn [negb].
      destruct (proj2 (Hfiles profileName) Hin) as [fileData ->].
      destruct (is_empty (restore_base64Data fileData)); split; done.
    - destruct (negb (includes (listing view) (profile_file profileName)));
        [done|].
      destruct (files view !! profile_file profileName) as [fileData|] eqn:E;
        [|done].
      destruct Hout. apply Hfiles. by eexists. }
  split; [exact Hr | exact Hr].
Qed.

Lemma download_finds_witness :
  @restore_download table_codec echo_http listed_view "wor" = inl ProfileNotFound ∧
  @restore_download table_codec echo_http listed_view "work" ≠ inl ProfileNotFound.
Proof.
  destruct (@download_finds_exactly_the_stored_profiles table_codec echo_http
              listed_view [] ["work"] "wor" eq_refl) as [Hwor _];
    [vm_compute; reflexivity|].
  destruct (@download_finds_exactly_the_stored_profiles table_codec echo_http
              listed_view [] ["work"] "work" eq_refl) as [Hwork _];
    [vm_compute; reflexivity|].
  split.
  - apply Hwor. intros Hin. apply list_elem_of_singleton in Hin. discriminate.
  - intros Hnf. apply Hwork in Hnf. apply Hnf. apply list_elem_of_singleton. reflexivity.
Defined.


(** ** 21. Watch mode: a burst of changes is saved once *)

Lemma step_burst_state t0 seen s e s' :
  burst_state t0 seen s → burst_event e = true → step s e = Some s' →
  burst_state t0 (match e with Change => Some (clock s) | _ => seen end) s'.
Proof.
  intros (Hlast & Hpend & Htasks & Hjournal & Hclock & Hseen) He Hstep.
  destruct e as [|h|k ok|k|dt]; try discriminate He; simpl in Hstep.
  - injection Hstep as <-.
    unfold burst_state, handleFileChange, setTimeout, clearTimeout. wsimpl.
    assert (Hgone : match pendingSaveTimeout s with
                    | Some h => delete h (timers s)
                    | None => timers s
                    end = ∅).
    { destruct seen as [c|].
      - destruct Hseen as (_ & _ & -> & ->). apply delete_singleton_eq.
      - by destruct Hseen as (-> & -> & _). }
    destruct (pendingSaveTimeout s); simpl in *; rewrite Hgone, insert_empty;
      repeat (split; [first [done | lia]|]); done.
  - destruct (0 <=? dt)%Z eqn:Hdt; [|done]. injection Hstep as <-.
    apply Z.leb_le in Hdt. unfold burst_state. wsimpl.
    repeat (split; [first [done | lia]|]).
    destruct seen as [c|]; [|done].
    destruct Hseen as (Hcd & Hc & Hh & Htimers).
    repeat (split; [first [done | lia]|]). done.
Qed.

Lemma run_burst_state t0 es : ∀ s0 seen s,
  burst_state t0 seen s0 → forallb burst_event es = true → run s0 es = Some s →
  burst_state t0 (last_change_time s0 es seen) s.
Proof.
  induction es as [|e es IH]; intros s0 seen s Hinv Hall; simpl.
  - by intros [= <-].
  - simpl in Hall. apply andb_prop in Hall as [He Hes].
    destruct (step s0 e) as [s1|] eqn:Hstep; [|done]. intros Hrun.
    apply (IH s1); [|done|done]. by apply (step_burst_state t0 seen s0).
Qed.

Lemma last_change_time_seen es : ∀ s0 seen s,
  run s0 es = Some s → is_Some seen ∨ In Change es →
  is_Some (last_change_time s0 es seen).
Proof.
  induction es as [|e es IH]; intros s0 seen s; simpl.
  - intros _ [Hs | []]. done.
  - destruct (step s0 e) as [s1|] eqn:Hstep; [|done]. intros Hrun Hor.
    apply (IH s1 _ s Hrun).
    destruct Hor as [Hs | [-> | Hin]]; [|left; by eexists|by right].
    left. by destruct e.
Qed.

(** A burst of changes is saved once: after any number of change
    notifications from the start of watch mode, however much time passes
    between them, no save has started and one debounce timer is armed, for
    [debounceDelay] after the last notification; when that time has come
    the timer can fire, and its callback starts exactly one
    [saveProfileSilent] and leaves no timer armed. *)
Theorem burst_of_changes_is_saved_once
    (t0 : Z) (burst : list event) (s : watch) :
  (minSaveInterval ≤ t0)%Z →
  forallb burst_event burst = true →
  In Change burst →
  run (boot t0) burst = Some s →
  ∃ h c,
    last_change_time (boot t0) burst None = Some c ∧
    saves_started s = 0 ∧
    pendingSaveTimeout s = Some h ∧
    timers s = {[ h := Timer (c + debounceDelay) DebounceCb ]} ∧
    ∀ dt, (0 ≤ dt)%Z → (c + debounceDelay ≤ clock s + dt)%Z →
      ∃ s', run s [Tick dt; Fire h] = Some s' ∧
            saves_started s' = 1 ∧ saves_in_flight s' = 1 ∧ timers s' = ∅.
Proof.
  intros Ht0 Hall Hchange Hrun.
  assert (Hboot : burst_state t0 None (boot t0)).
  { unfold burst_state. simpl. repeat split; (done || lia). }
  pose proof (run_burst_state t0 burst _ _ _ Hboot Hall Hrun) as Hinv.
  destruct (last_change_time_seen burst _ None _ Hrun (or_intror Hchange)) as [c Hc].
  rewrite Hc in Hinv.
  destruct Hinv as (Hlast & Hpend & Htasks & Hjournal & Hclock & Hcd & Hcc & Hh & Htimers).
  exists (pred (fresh s)), c. split; [done|].
  split; [unfold saves_started; by rewrite Hjournal|].
  split; [done|]. split; [done|].
  intros dt Hdt Hdue. simpl.
  assert (Hpos : (0 <=? dt)%Z = true) by (by apply Z.leb_le).
  rewrite Hpos. wsimpl. rewrite Htimers, lookup_singleton_eq. simpl.
  assert (Hfire : (c + debounceDelay <=? clock s + dt)%Z = true) by (by apply Z.leb_le).
  rewrite Hfire. unfold debounce_callback. wsimpl. rewrite Hcd. simpl.
  assert (Hint : (minSaveInterval <=? clock s + dt - lastSaveTime s)%Z = true).
  { apply Z.leb_le. rewrite Hlast. lia. }
  rewrite Hint. eexists. split; [reflexivity|].
  unfold saves_started, saves_in_flight. simpl.
  rewrite Hjournal, Htasks, delete_singleton_eq, insert_empty, map_to_list_singleton.
  done.
Qed.

Lemma burst_of_changes_witness :
  ∃ s', run (boot t_boot) [Change; Tick 100; Change; Tick 300; Change;
                           Tick 2000; Fire 2] = Some s' ∧
        saves_started s' = 1 ∧ saves_in_flight s' = 1 ∧ timers s' = ∅.
Proof.
  destruct (burst_of_changes_is_saved_once t_boot
              [Change; Tick 100; Change; Tick 300; Change]
              (default (boot t_boot)
                 (run (boot t_boot) [Change; Tick 100; Change; Tick 300; Change])))
    as (h & c & Hc & _ & Hh & _ & Hfire).
  - vm_compute. discriminate.
  - reflexivity.
  - simpl. tauto.
  - vm_compute. reflexivity.
  - injection Hh as <-. injection Hc as <-.
    destruct (Hfire 2000%Z) as (s' & Hrun & Hres); [lia | vm_compute; discriminate|].
    exists s'. split; [|exact Hres].
    rewrite <- Hrun. vm_compute. reflexivity.
Defined.
